(** * A sandboxed command terminal: model of [main.py] and its properties

    The development follows the source file top-down:

    - strings and the [shlex] tokenizer used by [Terminal.execute];
    - absolute paths, a filesystem tree with directories, regular files
      and symbolic links, [Path.resolve] and the kernel calls the
      handlers make;
    - the session state, a state-and-exception monad, the helpers and the
      command handlers of class [Terminal];
    - the properties of the path resolver, of the dispatcher and of the
      handlers.

    Conventions.  A Python [str] is a Rocq [string]; each [ascii] stands
    for one code point below 256.  A resolved [pathlib.Path] is the list of
    its components below [/].  File contents are the text that
    [open(p, 'r', encoding='utf-8', errors='replace')] delivers.  The model
    has no permissions, no name-length limit and no concurrent mutation of
    the disk: the only ways a system call fails are a missing entry, an
    entry of the wrong kind and a symbolic link that cannot be followed. *)

From stdpp Require Import gmap strings list pretty.
From Stdlib Require Import Ascii String ZArith Lia.

#[local] Open Scope string_scope.
#[local] Open Scope list_scope.
#[local] Set Warnings "-register-all".

(** ** Strings *)

Module Str.

(** The characters the sources name. *)
Definition slash : ascii := "/"%char.
Definition lf : ascii := "010"%char.
Definition squote : ascii := "'"%char.
Definition dquote : ascii := "034"%char.
Definition backslash : ascii := "\"%char.

(** [s.split(sep)] for a one-character separator: never empty, keeps
    empty fields. *)
Fixpoint split (sep : ascii) (s : string) : list string :=
  match s with
  | EmptyString => [EmptyString]
  | String c s' =>
      if Ascii.eqb c sep then EmptyString :: split sep s'
      else match split sep s' with
           | [] => [String c EmptyString]
           | w :: ws => String c w :: ws
           end
  end.

(** [sep.join(l)]. *)
Fixpoint join (sep : string) (l : list string) : string :=
  match l with
  | [] => ""
  | [x] => x
  | x :: l' => x +:+ sep +:+ join sep l'
  end.

Definition startswith (c : ascii) (s : string) : bool :=
  match s with
  | String c' _ => Ascii.eqb c' c
  | EmptyString => false
  end.

Definition newline : string := String lf EmptyString.

Definition chars (s : string) : list ascii := list_ascii_of_string s.
Definition of_chars (l : list ascii) : string := string_of_list_ascii l.

(** [str.isspace] on the code points below 256. *)
Definition isspace (c : ascii) : bool :=
  let n := nat_of_ascii c in
  (((9 <=? n) && (n <=? 13)) || ((28 <=? n) && (n <=? 32))
   || (n =? 133) || (n =? 160))%nat.

Fixpoint dropwhile (f : ascii -> bool) (l : list ascii) : list ascii :=
  match l with
  | c :: l' => if f c then dropwhile f l' else l
  | [] => []
  end.

(** [s.strip()]. *)
Definition strip (s : string) : string :=
  of_chars (rev (dropwhile isspace (rev (dropwhile isspace (chars s))))).

(** [str.lower] on the code points below 256: the ASCII capitals and
    the Latin-1 capitals other than the multiplication sign. *)
Definition lower_char (c : ascii) : ascii :=
  let n := nat_of_ascii c in
  if (((65 <=? n) && (n <=? 90))
      || ((192 <=? n) && (n <=? 222) && negb (n =? 215)))%nat
  then ascii_of_nat (n + 32) else c.

Definition lower (s : string) : string := of_chars (map lower_char (chars s)).

(** Code-point order on strings, as Python compares [str]. *)
Fixpoint ltb (a b : string) : bool :=
  match a, b with
  | _, EmptyString => false
  | EmptyString, String _ _ => true
  | String x a', String y b' =>
      ((nat_of_ascii x <? nat_of_ascii y)%nat)
      || (Ascii.eqb x y && ltb a' b')
  end.
End Str.

(** ** The tokenizer: [shlex.split(line)]

    [shlex.split] builds a [shlex] object in POSIX mode with
    [whitespace_split = True] and no comment characters, and collects the
    tokens that [read_token] delivers.  [lex] is [read_token] run to the
    end of the input: one step per character read, the fields [state],
    [token] and the locals [escapedstate] and [quoted] as arguments. *)

Module Shlex.

Inductive error : Type :=
| NoClosingQuotation
| NoEscapedCharacter.

(** The text of the [ValueError]. *)
Definition message (e : error) : string :=
  match e with
  | NoClosingQuotation => "No closing quotation"
  | NoEscapedCharacter => "No escaped character"
  end.

(** [self.state]: [' '], ['a'], a quote character, or the escape
    character. *)
Inductive lexstate : Type :=
| Blank
| Word
| Quote (q : ascii)
| Escape.

(** [self.whitespace = ' \t\r\n'], [self.quotes], [self.escape],
    [self.escapedquotes]. *)
Definition whitespace (c : ascii) : bool :=
  (Ascii.eqb c " " || Ascii.eqb c "009" || Ascii.eqb c "013" || Ascii.eqb c "010")%char.
Definition quotes (c : ascii) : bool :=
  Ascii.eqb c Str.squote || Ascii.eqb c Str.dquote.
Definition escape (c : ascii) : bool := Ascii.eqb c Str.backslash.
Definition escapedquotes (c : ascii) : bool := Ascii.eqb c Str.dquote.

(** What [read_token] hands back when it breaks out of its loop: [None]
    for an unquoted empty token. *)
Definition result (quoted : bool) (token : list ascii) : list string :=
  match token with
  | [] => if quoted then [Str.of_chars token] else []
  | _ => [Str.of_chars token]
  end.

Definition nonempty (token : list ascii) : bool :=
  match token with [] => false | _ => true end.

(** The token just read goes in front of those read by the later calls;
    a [ValueError] raised by a later call reaches the caller of
    [shlex.split]. *)
Definition emit (tokens : list string) (later : error + list string)
    : error + list string :=
  match later with
  | inl e => inl e
  | inr l => inr (tokens ++ l)
  end.

Fixpoint lex (state escapedstate : lexstate) (quoted : bool)
    (token : list ascii) (input : list ascii) : error + list string :=
  match input with
  | [] =>
      match state with
      | Blank | Word => inr (result quoted token)
      | Quote _ => inl NoClosingQuotation
      | Escape => inl NoEscapedCharacter
      end
  | nextchar :: input' =>
      match state with
      | Blank =>
          if whitespace nextchar then
            if nonempty token || quoted
            then emit (result quoted token) (lex Blank Blank false [] input')
            else lex Blank escapedstate quoted token input'
          else if escape nextchar then lex Escape Word quoted token input'
          else if quotes nextchar then lex (Quote nextchar) escapedstate quoted token input'
          else (* in wordchars, or whitespace_split *)
            lex Word escapedstate quoted [nextchar] input'
      | Quote q =>
          if Ascii.eqb nextchar q then lex Word escapedstate true token input'
          else if escape nextchar && escapedquotes q
          then lex Escape (Quote q) true token input'
          else lex (Quote q) escapedstate true (token ++ [nextchar]) input'
      | Escape =>
          let token :=
            match escapedstate with
            | Quote q =>
                if negb (Ascii.eqb nextchar Str.backslash) && negb (Ascii.eqb nextchar q)
                then token ++ [Str.backslash] else token
            | _ => token
            end in
          lex escapedstate escapedstate quoted (token ++ [nextchar]) input'
      | Word =>
          if whitespace nextchar then
            if nonempty token || quoted
            then emit (result quoted token) (lex Blank Blank false [] input')
            else lex Blank escapedstate quoted token input'
          else if quotes nextchar then lex (Quote nextchar) escapedstate quoted token input'
          else if escape nextchar then lex Escape Word quoted token input'
          else lex Word escapedstate quoted (token ++ [nextchar]) input'
      end
  end.

Definition split (s : string) : error + list string :=
  lex Blank Blank false [] (Str.chars s).

End Shlex.


(** ** Exceptions *)

(** The exceptions that reach [Terminal.execute].  [SystemExit] is the
    only one outside the [Exception] hierarchy. *)
Inductive exn : Type :=
| SystemExit (code : Z)
| ValueError (msg : string)
| EOFError
| OSError (errno : nat) (strerror : string) (filename : string)
| LibraryError (msg : string).

(** [str(e)]; a file name is shown between single quotes, as [repr] does
    for names without quotes, backslashes or control characters. *)
Definition exn_str (e : exn) : string :=
  match e with
  | SystemExit code => pretty code
  | ValueError msg => msg
  | EOFError => ""
  | OSError errno strerror filename =>
      "[Errno " +:+ pretty errno +:+ "] " +:+ strerror +:+ ": '" +:+ filename +:+ "'"
  | LibraryError msg => msg
  end.

(** [isinstance(e, Exception)]. *)
Definition is_Exception (e : exn) : bool :=
  match e with
  | SystemExit _ => false
  | _ => true
  end.

(** ** Paths and the filesystem *)

Module Posix.

(** An absolute path: the components below [/]. *)
Definition path : Type := list string.

(** [str(p)]. *)
Definition str (p : path) : string := "/" +:+ Str.join "/" p.

(** [p.name]: the last component, empty for [/]. *)
Definition name (p : path) : string := List.last p "".

(** [p.parent]; [/] is its own parent. *)
Definition parent (p : path) : path := removelast p.

(** [PurePath.relative_to]: the components of [p] below [other], or the
    [ValueError] of a path that is not below it. *)
Fixpoint relative_to (p other : path) {struct other} : option path :=
  match other with
  | [] => Some p
  | x :: other' =>
      match p with
      | y :: p' => if String.eqb x y then relative_to p' other' else None
      | [] => None
      end
  end.

(** [Path(s)] for a string: [is_absolute] and the parts below the anchor.
    Empty components and [.] are dropped, [..] is kept. *)
Definition is_absolute (s : string) : bool := Str.startswith Str.slash s.

Definition keeps (x : string) : bool := negb (String.eqb x "") && negb (String.eqb x ".").

Definition parts (s : string) : list string := List.filter keeps (Str.split Str.slash s).

(** A directory tree.  A directory maps names to entries. *)
Inductive node : Type :=
| File (text : string)
| Symlink (target : string)
| Dir (entries : gmap string node).

(** [os.lstat]: walk down the tree; nothing is found below a file or
    below a link. *)
Fixpoint lstat (n : node) (p : path) : option node :=
  match p with
  | [] => Some n
  | x :: p' =>
      match n with
      | Dir entries =>
          match entries !! x with
          | Some child => lstat child p'
          | None => None
          end
      | _ => None
      end
  end.

(** [os.path.realpath(p)], not strict.  Components are taken from left to
    right; [..] drops the last resolved component; a symbolic link is
    replaced by the resolution of its target, read relative to the
    directory that holds the link.  [seen] lists the links whose targets
    are being resolved: meeting one of them again is a loop, and the link
    is then kept as an ordinary component.  [depth] bounds the nesting of
    link targets; once it is used up a link is kept too. *)
Fixpoint joinrealpath (depth : nat) (fs : node)
    : list path -> path -> list string -> path :=
  fix walk (seen : list path) (cur : path) (rest : list string) {struct rest} : path :=
    match rest with
    | [] => cur
    | x :: rest' =>
        if String.eqb x "" || String.eqb x "." then walk seen cur rest'
        else if String.eqb x ".." then walk seen (removelast cur) rest'
        else
          let newpath := cur ++ [x] in
          match lstat fs newpath with
          | Some (Symlink target) =>
              if bool_decide (newpath ∈ seen) then walk seen newpath rest'
              else
                match depth with
                | O => walk seen newpath rest'
                | S depth' =>
                    let start := if is_absolute target then [] else cur in
                    let linked :=
                      joinrealpath depth' fs (newpath :: seen) start
                        (Str.split Str.slash target) in
                    walk seen linked rest'
                end
          | _ => walk seen newpath rest'
          end
    end.

Definition realpath (depth : nat) (fs : node) (p : list string) : path :=
  joinrealpath depth fs [] [] p.

(** [os.stat]: follows links; a link that could not be followed is an
    error. *)
Definition stat (depth : nat) (fs : node) (p : path) : option node :=
  match lstat fs (realpath depth fs p) with
  | Some (Symlink _) => None
  | r => r
  end.

(** [Path.exists], [Path.is_dir], [Path.is_file]. *)
Definition exists_ (depth : nat) (fs : node) (p : path) : bool :=
  match stat depth fs p with Some _ => true | None => false end.
Definition is_dir (depth : nat) (fs : node) (p : path) : bool :=
  match stat depth fs p with Some (Dir _) => true | _ => false end.
Definition is_file (depth : nat) (fs : node) (p : path) : bool :=
  match stat depth fs p with Some (File _) => true | _ => false end.

(** Error numbers. *)
Inductive errno : Type := ENOENT | EEXIST | ENOTDIR | EISDIR | ELOOP | EBUSY.

Definition errno_code (e : errno) : nat :=
  match e with
  | ENOENT => 2 | EBUSY => 16 | EEXIST => 17 | ENOTDIR => 20 | EISDIR => 21 | ELOOP => 40
  end.

Definition strerror (e : errno) : string :=
  match e with
  | ENOENT => "No such file or directory"
  | EBUSY => "Device or resource busy"
  | EEXIST => "File exists"
  | ENOTDIR => "Not a directory"
  | EISDIR => "Is a directory"
  | ELOOP => "Too many levels of symbolic links"
  end.

Definition os_error (e : errno) (p : path) : exn :=
  OSError (errno_code e) (strerror e) (str p).

(** System calls that change the tree.  They are applied to resolved
    paths; a link met below the top is one that resolution gave up on. *)

(** The entry [x] of a directory replaced by what [f] makes of it. *)
Definition below (n : node) (x : string) (missing : errno)
    (f : node -> errno + node) : errno + node :=
  match n with
  | Dir entries =>
      match entries !! x with
      | Some child =>
          match f child with
          | inr child' => inr (Dir (<[x := child']> entries))
          | inl e => inl e
          end
      | None => inl missing
      end
  | File _ => inl ENOTDIR
  | Symlink _ => inl ELOOP
  end.

(** [os.mkdir(p)]. *)
Fixpoint os_mkdir (n : node) (p : path) : errno + node :=
  match p with
  | [] => inl EEXIST
  | [x] =>
      match n with
      | Dir entries =>
          match entries !! x with
          | Some _ => inl EEXIST
          | None => inr (Dir (<[x := Dir ∅]> entries))
          end
      | File _ => inl ENOTDIR
      | Symlink _ => inl ELOOP
      end
  | x :: p' => below n x ENOENT (fun child => os_mkdir child p')
  end.

(** [os.unlink(p)] on a file or link, [shutil.rmtree(p)] on a directory
    below [/]: the entry goes, with all that is below it. *)
Fixpoint remove (n : node) (p : path) : errno + node :=
  match p with
  | [] => inl EBUSY
  | [x] =>
      match n with
      | Dir entries =>
          match entries !! x with
          | Some _ => inr (Dir (delete x entries))
          | None => inl ENOENT
          end
      | File _ => inl ENOTDIR
      | Symlink _ => inl ELOOP
      end
  | x :: p' => below n x ENOENT (fun child => remove child p')
  end.

(** [open(p, 'a')]: creates an empty file where there is none. *)
Fixpoint open_append (n : node) (p : path) : errno + node :=
  match p with
  | [] => inl EISDIR
  | [x] =>
      match n with
      | Dir entries =>
          match entries !! x with
          | Some (File _) => inr n
          | Some (Dir _) => inl EISDIR
          | Some (Symlink _) => inl ELOOP
          | None => inr (Dir (<[x := File ""]> entries))
          end
      | File _ => inl ENOTDIR
      | Symlink _ => inl ELOOP
      end
  | x :: p' => below n x ENOENT (fun child => open_append child p')
  end.

End Posix.

Import Posix.

(** [Path.mkdir(parents=True, exist_ok=True)].  The library calls
    [os.mkdir]; on [FileNotFoundError] it makes the parent the same way
    and calls [os.mkdir] once more; on any other [OSError] it raises
    unless the path is a directory.  The recursion on [self.parent] is a
    recursion on the components read from the last one. *)
Fixpoint mkdir_from_last (depth : nat) (fs : node) (rp : list string) : exn + node :=
  let p := rev rp in
  match os_mkdir fs p with
  | inr fs' => inr fs'
  | inl ENOENT =>
      match rp with
      | [] => inl (os_error ENOENT p)
      | _ :: rparent =>
          match mkdir_from_last depth fs rparent with
          | inl e => inl e
          | inr fs1 =>
              match os_mkdir fs1 p with
              | inr fs2 => inr fs2
              | inl ENOENT => inl (os_error ENOENT p)
              | inl e => if is_dir depth fs1 p then inr fs1 else inl (os_error e p)
              end
          end
      end
  | inl e => if is_dir depth fs p then inr fs else inl (os_error e p)
  end.

Definition mkdir (depth : nat) (fs : node) (p : path) : exn + node :=
  mkdir_from_last depth fs (rev p).

(** [shutil.rmtree(p)] on a directory.  Below [/] the entry is removed;
    [/] itself is emptied and cannot be removed. *)
Definition rmtree (fs : node) (p : path) : node * option exn :=
  match p with
  | [] => (match fs with Dir _ => Dir ∅ | _ => fs end, Some (os_error EBUSY p))
  | _ =>
      match remove fs p with
      | inr fs' => (fs', None)
      | inl e => (fs, Some (os_error e p))
      end
  end.

(** [sorted(items, key=...)]: a stable insertion sort; [lt] is the strict
    order of the keys. *)
Section Sorted.
Context {A : Type} (lt : A -> A -> bool).

Fixpoint insert_sorted (x : A) (l : list A) : list A :=
  match l with
  | [] => [x]
  | y :: l' => if lt y x then y :: insert_sorted x l' else x :: l
  end.

Definition sorted (l : list A) : list A := foldr insert_sorted [] l.
End Sorted.

(** The lines of a text, each with its line feed, as iterating over an
    open text file gives them. *)
Fixpoint lines_from (cur : list ascii) (text : list ascii) : list string :=
  match text with
  | [] => match cur with [] => [] | _ => [Str.of_chars cur] end
  | c :: text' =>
      if Ascii.eqb c Str.lf then Str.of_chars (cur ++ [c]) :: lines_from [] text'
      else lines_from (cur ++ [c]) text'
  end.

Definition readlines (text : string) : list string := lines_from [] (Str.chars text).

(** [int(s)] for a string: blanks around, a sign, decimal digits with
    single underscores between them. *)
Definition digit (c : ascii) : option Z :=
  let n := nat_of_ascii c in
  if ((48 <=? n) && (n <=? 57))%nat then Some (Z.of_nat (n - 48)) else None.

Fixpoint digits (acc : Z) (after_digit : bool) (l : list ascii) : option Z :=
  match l with
  | [] => if after_digit then Some acc else None
  | c :: l' =>
      match digit c with
      | Some d => digits (10 * acc + d) true l'
      | None =>
          if Ascii.eqb c "_" && after_digit
          then match l' with
               | c' :: _ =>
                   match digit c' with
                   | Some _ => digits acc false l'
                   | None => None
                   end
               | [] => None
               end
          else None
      end
  end.

Definition int (s : string) : option Z :=
  match Str.chars (Str.strip s) with
  | "-"%char :: l => Z.opp <$> digits 0 false l
  | "+"%char :: l => digits 0 false l
  | l => digits 0 false l
  end.


(** ** The session *)

(** The fields [root] and [cwd] of a [Terminal], with the world it acts
    on: the directory tree, the lines still to be read from standard
    input, and the text written to standard output so far. *)
Record state : Type := State {
  root : path;
  cwd : path;
  fs : node;
  stdin : list string;
  stdout : string;
}.

Definition set_cwd (p : path) (s : state) : state :=
  State (root s) p (fs s) (stdin s) (stdout s).
Definition set_fs (n : node) (s : state) : state :=
  State (root s) (cwd s) n (stdin s) (stdout s).
Definition set_stdin (l : list string) (s : state) : state :=
  State (root s) (cwd s) (fs s) l (stdout s).
Definition set_stdout (t : string) (s : state) : state :=
  State (root s) (cwd s) (fs s) (stdin s) t.

(** What the terminal takes from its platform: the library routines that
    [cp] and [mv] wrap, the system tools behind [ps], [sysmon] and [df],
    and [readline].  Each is a function of the session's world.
    [symlink_depth] bounds the nesting of link targets in
    [Posix.joinrealpath]. *)
Class Host : Type := {
  symlink_depth : nat;
  shutil_copytree : node -> path -> path -> exn + node;
  shutil_copy2 : node -> path -> path -> exn + node;
  shutil_move : node -> path -> path -> exn + node;
  ps_tool : state -> exn + string;
  now : state -> string;
  getloadavg : state -> option string;
  memory_info : state -> exn + string;
  disk_usage : state -> exn + string;
  readline_history : state -> option (list string);
}.

(** ** Computations: state and exceptions *)

Inductive outcome (A : Type) : Type :=
| Return (a : A)
| Raise (e : exn).
Arguments Return {A} a.
Arguments Raise {A} e.

Definition M (A : Type) : Type := state -> outcome A * state.

#[export] Instance M_ret : MRet M := fun A a s => (Return a, s).
#[export] Instance M_bind : MBind M := fun A B f m s =>
  match m s with
  | (Return a, s') => f a s'
  | (Raise e, s') => (Raise e, s')
  end.

Definition raise {A : Type} (e : exn) : M A := fun s => (Raise e, s).
Definition gets {A : Type} (f : state -> A) : M A := fun s => (Return (f s), s).
Definition modify (f : state -> state) : M unit := fun s => (Return tt, f s).

(** [try: m except E as e: h(e)], for the exceptions [E] that [caught]
    accepts. *)
Definition try_except {A : Type} (m : M A) (caught : exn -> bool) (h : exn -> M A) : M A :=
  fun s =>
    match m s with
    | (Raise e, s') => if caught e then h e s' else (Raise e, s')
    | r => r
    end.

(** [for x in l: body(x)]; a [continue] is the end of [body]. *)
Fixpoint for_each {A : Type} (body : A -> M unit) (l : list A) : M unit :=
  match l with
  | [] => mret tt
  | x :: l' => body x ;; for_each body l'
  end.

(** [sys.stdout.write(text)], [print(text)], [input(prompt)]. *)
Definition write (text : string) : M unit :=
  modify (fun s => set_stdout (stdout s +:+ text) s).

Definition print (text : string) : M unit := write (text +:+ Str.newline).

Definition input (prompt : string) : M string :=
  write prompt ;;
  l ← gets stdin;
  match l with
  | [] => raise EOFError
  | line :: l' => modify (set_stdin l') ;; mret line
  end.

(** A system call on the tree, with its exception. *)
Definition syscall (f : node -> exn + node) : M unit :=
  n ← gets fs;
  match f n with
  | inr n' => modify (set_fs n')
  | inl e => raise e
  end.

(** ** class Terminal *)

Section Terminal.
Context `{Host}.

(** *** Helpers *)

Definition resolve (n : node) (p : list string) : path := realpath symlink_depth n p.

(** [Terminal._resolve_path]: the user's path inside the sandbox root. *)
Definition _resolve_path (s : state) (path_str : option string) : path :=
  match path_str with
  | None | Some "" => cwd s
  | Some str =>
      let p :=
        if is_absolute str then resolve (fs s) (parts str)
        else resolve (fs s) (cwd s ++ parts str) in
      match relative_to p (root s) with
      | Some _ => p
      | None => resolve (fs s) (root s ++ parts (name p))
      end
  end.

Definition _print_err (msg : string) : M unit := print ("error: " +:+ msg).

Definition is_EOFError (e : exn) : bool :=
  match e with EOFError => true | _ => false end.

Definition _confirm (prompt : string) : M bool :=
  try_except
    (answer ← input (prompt +:+ " [y/N]: ");
     mret (String.eqb (Str.lower (Str.strip answer)) "y"))
    is_EOFError
    (fun _ => mret false).

Definition path_exists (p : path) : M bool :=
  gets (fun s => exists_ symlink_depth (fs s) p).
Definition path_is_dir (p : path) : M bool :=
  gets (fun s => is_dir symlink_depth (fs s) p).
Definition path_is_file (p : path) : M bool :=
  gets (fun s => is_file symlink_depth (fs s) p).
Definition path_mkdir (p : path) : M unit :=
  syscall (fun n => mkdir symlink_depth n p).

(** [fh.read()] on a path that [is_file]. *)
Definition read_text (p : path) : M string :=
  gets (fun s => match stat symlink_depth (fs s) p with
                 | Some (File text) => text
                 | _ => ""
                 end).

(** *** Commands *)

Definition help_text : string :=
  Str.join Str.newline
    [ "Built-in commands:";
      "  help                 Show this help";
      "  pwd                  Print working directory";
      "  ls [path]            List files (add -a to include hidden)";
      "  cd [path]            Change directory (sandboxed to project root)";
      "  mkdir <dir>...       Create directories (supports multiple)";
      "  rm [-r] <path>...    Remove files; -r for directories";
      "  touch <file>...      Create empty file(s) or update mtime";
      "  cat <file>...        Print file(s)";
      "  echo [text]          Print text";
      "  cp <src> <dst>       Copy file/dir (dst may be dir)";
      "  mv <src> <dst>       Move/rename";
      "  head [-n N] <file>   First N lines (default 10)";
      "  tail [-n N] <file>   Last N lines (default 10)";
      "  ps                   Show running processes (system)";
      "  sysmon               CPU & memory snapshot";
      "  df                   Disk usage for project root";
      "  history              Show recent command history (if available)";
      "  exit | quit          Leave terminal" ].

Definition cmd_help (args : list string) : M unit := print help_text.

Definition cmd_pwd (args : list string) : M unit :=
  c ← gets cwd; print (str c).

(** The loop over the arguments of [ls]: [-a] sets [show_all], anything
    else becomes the target. *)
Definition ls_arg (acc : bool * option string) (a : string) : bool * option string :=
  if String.eqb a "-a" then (true, snd acc) else (fst acc, Some a).

Definition ls_args (args : list string) : bool * option string :=
  fold_left ls_arg args (false, None).

(** The sort key [(not p.is_dir(), p.name.lower())] and its order. *)
Definition ls_key (n : node) (dir : path) (x : string) : bool * string :=
  (negb (is_dir symlink_depth n (dir ++ [x])), Str.lower x).

Definition key_lt (a b : bool * string) : bool :=
  (negb (fst a) && fst b) || (Bool.eqb (fst a) (fst b) && Str.ltb (snd a) (snd b)).

(** [path.iterdir()]: the names in the directory, in the order the
    system lists them. *)
Definition iterdir (n : node) (dir : path) : list string :=
  match stat symlink_depth n dir with
  | Some (Dir entries) => (map_to_list entries).*1
  | _ => []
  end.

Definition ls_entry (show_all : bool) (dir : path) (x : string) : M unit :=
  if negb show_all && Str.startswith "."%char x then mret tt
  else
    d ← path_is_dir (dir ++ [x]);
    print (x +:+ (if (d : bool) then "/" else "")).

Definition cmd_ls (args : list string) : M unit :=
  let '(show_all, target) := ls_args args in
  p ← gets (fun s => _resolve_path s target);
  e ← path_exists p;
  if negb e then _print_err "path not found"
  else
    f ← path_is_file p;
    if (f : bool) then print (name p)
    else
      n ← gets fs;
      let items :=
        sorted (fun x y => key_lt (ls_key n p x) (ls_key n p y)) (iterdir n p) in
      for_each (ls_entry show_all p) items.

Definition cmd_cd (args : list string) : M unit :=
  p ← match args with
      | a :: _ => gets (fun s => _resolve_path s (Some a))
      | [] => gets root
      end;
  e ← path_exists p;
  d ← path_is_dir p;
  if negb e || negb d then _print_err "no such directory"
  else
    r ← gets root;
    match relative_to p r with
    | None => _print_err "access outside project root is blocked"
    | Some _ => modify (set_cwd p)
    end.

Definition cmd_mkdir (args : list string) : M unit :=
  match args with
  | [] => _print_err "usage: mkdir <dir>..."
  | _ =>
      for_each
        (fun d => p ← gets (fun s => _resolve_path s (Some d)); path_mkdir p)
        args
  end.

(** The first loop of [rm]: [-r] sets [recursive], the rest are paths. *)
Definition rm_args (args : list string) : bool * list string :=
  fold_left
    (fun acc a => if String.eqb a "-r" then (true, snd acc) else (fst acc, snd acc ++ [a]))
    args (false, []).

(** The body of the second loop of [rm]. *)
Definition rm_item (recursive : bool) (pstr : string) : M unit :=
  p ← gets (fun s => _resolve_path s (Some pstr));
  e ← path_exists p;
  if negb e then _print_err ("not found: " +:+ pstr)
  else
    d ← path_is_dir p;
    if (d : bool) then
      if negb recursive then _print_err ("is a directory (use -r): " +:+ pstr)
      else
        yes ← _confirm ("rm -r " +:+ str p);
        if negb yes then print "aborted"
        else
          n ← gets fs;
          let '(n', err) := rmtree n p in
          modify (set_fs n') ;;
          match err with
          | Some e => raise e
          | None => mret tt
          end
    else
      syscall (fun n => match remove n p with
                        | inr n' => inr n'
                        | inl e => inl (os_error e p)
                        end).

Definition cmd_rm (args : list string) : M unit :=
  match args with
  | [] => _print_err "usage: rm [-r] <path>..."
  | _ =>
      let '(recursive, paths) := rm_args args in
      for_each (rm_item recursive) paths
  end.

Definition touch_item (f : string) : M unit :=
  p ← gets (fun s => _resolve_path s (Some f));
  path_mkdir (parent p) ;;
  syscall (fun n => match open_append n p with
                    | inr n' => inr n'
                    | inl e => inl (os_error e p)
                    end).

Definition cmd_touch (args : list string) : M unit :=
  match args with
  | [] => _print_err "usage: touch <file>..."
  | _ => for_each touch_item args
  end.

(** The body of the loop of [cat]. *)
Definition cat_item (f : string) : M unit :=
  p ← gets (fun s => _resolve_path s (Some f));
  e ← path_exists p;
  i ← path_is_file p;
  if negb e || negb i then _print_err ("no such file: " +:+ f)
  else
    text ← read_text p;
    write text.

Definition cmd_cat (args : list string) : M unit :=
  match args with
  | [] => _print_err "usage: cat <file>..."
  | _ => for_each cat_item args
  end.

Definition cmd_echo (args : list string) : M unit := print (Str.join " " args).

Definition cmd_cp (args : list string) : M unit :=
  match args with
  | a0 :: a1 :: _ =>
      src ← gets (fun s => _resolve_path s (Some a0));
      dst ← gets (fun s => _resolve_path s (Some a1));
      e ← path_exists src;
      if negb e then _print_err "source not found"
      else
        sd ← path_is_dir src;
        de ← path_exists dst;
        dd ← path_is_dir dst;
        if (sd : bool) then
          let dst := if de && dd then dst ++ parts (name src) else dst in
          syscall (fun n => shutil_copytree n src dst)
        else
          let dst := if dd then dst ++ parts (name src) else dst in
          path_mkdir (parent dst) ;;
          syscall (fun n => shutil_copy2 n src dst)
  | _ => _print_err "usage: cp <src> <dst>"
  end.

Definition cmd_mv (args : list string) : M unit :=
  match args with
  | a0 :: a1 :: _ =>
      src ← gets (fun s => _resolve_path s (Some a0));
      dst ← gets (fun s => _resolve_path s (Some a1));
      e ← path_exists src;
      if negb e then _print_err "source not found"
      else
        path_mkdir (parent dst) ;;
        syscall (fun n => shutil_move n src dst)
  | _ => _print_err "usage: mv <src> <dst>"
  end.

(** [Terminal._read_n_lines].  The [deque(maxlen=n)] of the tail branch
    holds the last [n] lines read. *)
Definition _read_n_lines (p : path) (n : Z) (tail : bool) : M unit :=
  if (n <=? 0)%Z then mret tt
  else
    text ← read_text p;
    let ls := readlines text in
    let k := Z.to_nat n in
    for_each write (if tail then drop (List.length ls - k) ls else take k ls).

(** The first loop of [head] and [tail]: [-n] takes the next argument as
    the count; [None] is the [invalid N] exit. *)
Fixpoint head_args (args : list string) (n : Z) (files : list string)
    : option (Z * list string) :=
  match args with
  | [] => Some (n, files)
  | a :: rest =>
      if String.eqb a "-n" then
        match rest with
        | [] => None
        | v :: rest' =>
            match int v with
            | Some k => head_args rest' k files
            | None => None
            end
        end
      else head_args rest n (files ++ [a])
  end.

(** The body of the second loop of [head] and [tail]. *)
Definition head_item (n : Z) (tail : bool) (f : string) : M unit :=
  p ← gets (fun s => _resolve_path s (Some f));
  e ← path_exists p;
  i ← path_is_file p;
  if negb e || negb i then _print_err ("no such file: " +:+ f)
  else _read_n_lines p n tail.

Definition cmd_head (args : list string) : M unit :=
  match args with
  | [] => _print_err "usage: head [-n N] <file>"
  | _ =>
      match head_args args 10 [] with
      | None => _print_err "invalid N"
      | Some (n, files) => for_each (head_item n false) files
      end
  end.

Definition cmd_tail (args : list string) : M unit :=
  match args with
  | [] => _print_err "usage: tail [-n N] <file>"
  | _ =>
      match head_args args 10 [] with
      | None => _print_err "invalid N"
      | Some (n, files) => for_each (head_item n true) files
      end
  end.

(** A call into the platform. *)
Definition host_call (f : state -> exn + string) : M string :=
  fun s =>
    match f s with
    | inr text => (Return text, s)
    | inl e => (Raise e, s)
    end.

Definition cmd_ps (args : list string) : M unit :=
  try_except (text ← host_call ps_tool; write text) is_Exception
    (fun e => _print_err ("ps failed: " +:+ exn_str e)).

Definition cmd_sysmon (args : list string) : M unit :=
  t ← gets now;
  print ("Snapshot @ " +:+ t) ;;
  la ← gets getloadavg;
  match la with
  | Some l => print l
  | None => mret tt
  end ;;
  try_except (text ← host_call memory_info; write text) is_Exception
    (fun e => _print_err ("mem info failed: " +:+ exn_str e)).

Definition cmd_df (args : list string) : M unit :=
  line ← host_call disk_usage; print line.

Definition cmd_history (args : list string) : M unit :=
  h ← gets readline_history;
  match h with
  | None => print "history unavailable on this platform"
  | Some items =>
      let hist_len := List.length items in
      let start := Nat.max 1 (hist_len + 1 - 50) in
      for_each
        (fun i => print (pretty i +:+ ": " +:+ nth (i - 1) items "None"))
        (seq start (hist_len + 1 - start))
  end.

Definition cmd_exit (args : list string) : M unit := raise (SystemExit 0).

Definition _banner : M unit :=
  print ("CodeMate Python Terminal (sandboxed)" +:+ Str.newline
         +:+ "Type 'help' to see commands, 'exit' to leave.").

(** *** The registry and the dispatcher *)

Definition commands : gmap string (list string -> M unit) :=
  list_to_map
    [ ("help", cmd_help); ("pwd", cmd_pwd); ("ls", cmd_ls); ("cd", cmd_cd);
      ("mkdir", cmd_mkdir); ("rm", cmd_rm); ("touch", cmd_touch);
      ("cat", cmd_cat); ("echo", cmd_echo); ("cp", cmd_cp); ("mv", cmd_mv);
      ("head", cmd_head); ("tail", cmd_tail); ("ps", cmd_ps);
      ("sysmon", cmd_sysmon); ("df", cmd_df); ("history", cmd_history);
      ("exit", cmd_exit); ("quit", cmd_exit) ].

(** The [ValueError] of [cmd, *args = parts] on an empty list. *)
Definition unpack_error : exn :=
  ValueError "not enough values to unpack (expected at least 1, got 0)".

Definition execute (line : string) : M unit :=
  match Shlex.split line with
  | inl e => _print_err ("parse error: " +:+ Shlex.message e)
  | inr parts =>
      match parts with
      | [] => raise unpack_error
      | cmd :: args =>
          match commands !! cmd with
          | None => _print_err ("unknown command: " +:+ cmd +:+ ". Try 'help'.")
          | Some handler =>
              try_except (handler args) is_Exception
                (fun e => _print_err (exn_str e))
          end
      end
  end.

(** [Terminal.__init__] for a [root] given as an absolute path: the
    resolved root, the working directory on it, and the root directory
    made if missing. *)
Definition init (root_arg : string) (world : node) (lines : list string)
    : exn + state :=
  let r := resolve world (parts root_arg) in
  match mkdir symlink_depth world r with
  | inr world' => inr (State r r world' lines "")
  | inl e => inl e
  end.

(** [Terminal.run]: one unit of [fuel] per line read. *)
Definition prompt (s : state) : exn + string :=
  if bool_decide (cwd s = root s) then inr "codemate:/$ "
  else
    match relative_to (cwd s) (root s) with
    | Some rel =>
        let r := Str.join "/" rel in
        inr ("codemate:" +:+ (if String.eqb r "" then "/" else r) +:+ "$ ")
    | None => inl (ValueError "path is not in the subpath of root")
    end.

Fixpoint run_loop (fuel : nat) : M unit :=
  match fuel with
  | O => mret tt
  | S fuel' =>
      r ← try_except
            (pr ← host_call prompt; line ← input pr; mret (Some line))
            is_EOFError
            (fun _ => print (Str.newline +:+ "exit") ;; mret None);
      match r with
      | None => mret tt
      | Some line =>
          if String.eqb (Str.strip line) "" then run_loop fuel'
          else execute line ;; run_loop fuel'
      end
  end.

Definition run (fuel : nat) : M unit := _banner ;; run_loop fuel.

End Terminal.

(** ** Notions used by the properties *)

(** A name that a directory entry can have. *)
Definition is_name (x : string) : bool :=
  negb (String.eqb x "") && negb (String.eqb x ".") && negb (String.eqb x "..")
  && forallb (fun c => negb (Ascii.eqb c Str.slash)) (Str.chars x).

(** A canonical absolute path: nothing but names. *)
Definition canonical (p : path) : Prop := Forall (fun x => is_name x = true) p.

(** [p] is [r] or has [r] as an ancestor. *)
Definition within (r p : path) : Prop := r `prefix_of` p.

(** The entry at [p] is not a symbolic link. *)
Definition not_link (n : node) (p : path) : Prop :=
  forall target, lstat n p <> Some (Symlink target).

(** No component of [rest], looked up below [cur], is a symbolic link. *)
Definition linkfree (n : node) (cur : path) (rest : list string) : Prop :=
  forall k, (0 < k <= List.length rest)%nat -> not_link n (cur ++ take k rest).

(** Two trees with the same symbolic links. *)
Definition same_links (a b : node) : Prop :=
  forall p target, lstat a p = Some (Symlink target) <-> lstat b p = Some (Symlink target).

(** A component without [/]. *)
Definition noslash (x : string) : Prop :=
  forallb (fun c => negb (Ascii.eqb c Str.slash)) (Str.chars x) = true.

(** [root] and [cwd] are canonical paths. *)
Definition well_formed (s : state) : Prop := canonical (root s) /\ canonical (cwd s).

(** The text of one [_print_err] call added to standard output. *)
Definition reported (msg : string) (s : state) : state :=
  set_stdout (stdout s +:+ ("error: " +:+ msg) +:+ Str.newline) s.


Section Sessions.
Context `{Host}.

(** The path as typed, canonicalized: the first step of
    [_resolve_path]. *)
Definition canonical_form (s : state) (input : string) : path :=
  if is_absolute input then resolve (fs s) (parts input)
  else resolve (fs s) (cwd s ++ parts input).

(** The path that [cd] is about to enter. *)
Definition cd_target (s : state) (args : list string) : path :=
  match args with
  | a :: _ => _resolve_path s (Some a)
  | [] => root s
  end.

(** The states of a session: the one [Terminal(root)] starts in, and those
    that calls of [execute] lead to. *)
Inductive reachable : state -> Prop :=
| reachable_init root_arg world lines s :
    init root_arg world lines = inr s -> reachable s
| reachable_execute line s :
    reachable s -> reachable (snd (execute line s)).

(** A computation that leaves [root] and [cwd] alone. *)
Definition keeps_dirs {A : Type} (m : M A) : Prop :=
  forall s, root (snd (m s)) = root s /\ cwd (snd (m s)) = cwd s.

(** A computation that never raises. *)
Definition returns {A : Type} (m : M A) : Prop :=
  forall s, exists a, fst (m s) = Return a.

End Sessions.

(** The names in the registry. *)
Definition command_names : list string :=
  [ "help"; "pwd"; "ls"; "cd"; "mkdir"; "rm"; "touch"; "cat"; "echo"; "cp"; "mv";
    "head"; "tail"; "ps"; "sysmon"; "df"; "history"; "exit"; "quit" ].

(** The line [echo "a b" c]. *)
Definition quoting_line : string :=
  "echo " +:+ String Str.dquote "a b" +:+ String Str.dquote " c".

(** A platform without the optional services, for the examples. *)
Definition bare_host : Host := {|
  symlink_depth := 8;
  shutil_copytree := fun n _ _ => inl (LibraryError "copytree");
  shutil_copy2 := fun n _ _ => inl (LibraryError "copy2");
  shutil_move := fun n _ _ => inl (LibraryError "move");
  ps_tool := fun _ => inl (LibraryError "ps");
  now := fun _ => "";
  getloadavg := fun _ => None;
  memory_info := fun _ => inl (LibraryError "meminfo");
  disk_usage := fun _ => inl (LibraryError "disk_usage");
  readline_history := fun _ => None;
|}.

Definition mkdir_entries (l : list (string * node)) : node := Dir (list_to_map l).

(** A disk with a sandbox at [/srv/box]: a directory [docs] with a file
    in it, a file [notes], and a link [passwd] that points out of the
    sandbox. *)
Definition demo_disk : node :=
  mkdir_entries
    [ ("etc", mkdir_entries [("passwd", File "root:x:0:0")]);
      ("srv", mkdir_entries
         [("box", mkdir_entries
            [ ("docs", mkdir_entries [("a.txt", File "alpha")]);
              ("notes", File "todo");
              ("passwd", Symlink "/etc/passwd") ])]) ].

Definition demo : state := State ["srv"; "box"] ["srv"; "box"] demo_disk [] "".

(** The same sandbox without the link. *)
Definition plain_disk : node :=
  mkdir_entries
    [ ("etc", mkdir_entries [("passwd", File "root:x:0:0")]);
      ("srv", mkdir_entries
         [("box", mkdir_entries
            [ ("docs", mkdir_entries [("a.txt", File "alpha")]);
              ("notes", File "todo") ])]) ].

Definition plain : state := State ["srv"; "box"] ["srv"; "box"] plain_disk [] "".

(** A session whose sandbox root is [/], with one file and the answer
    [y] waiting on standard input; and the same session once [rm -r .]
    has asked and emptied [/]. *)
Definition at_slash : state := State [] [] (mkdir_entries [("x", File "")]) ["y"] "".

Definition emptied : state := State [] [] (Dir ∅) [] "rm -r / [y/N]: ".


(** ** Notions used by the properties of sessions and handlers *)

(** A computation every run of which takes a state to one related to it
    by [R]. *)
Definition respects (R : state -> state -> Prop) {A : Type} (m : M A) : Prop :=
  forall s, R s (snd (m s)).

(** A computation that raises nothing but [Exception]s. *)
Definition raises_exceptions {A : Type} (m : M A) : Prop :=
  forall s e, fst (m s) = Raise e -> is_Exception e = true.

(** Input is taken from the front and output is added at the end. *)
Definition io_forward (s s' : state) : Prop :=
  stdin s' `suffix_of` stdin s /\ exists text, stdout s' = stdout s +:+ text.

(** * Properties *)

(** Closed decidable facts, by evaluation. *)
Ltac by_evaluation :=
  match goal with
  | |- ?P => refine (@bool_decide_unpack P _ _); vm_compute; exact I
  end.

(** Running the reads of a handler's body. *)
Ltac run_reads :=
  repeat (progress (unfold mbind, M_bind, gets, path_exists, path_is_file,
                      path_is_dir, read_text; cbv beta iota)).

(** ** Examples of the tokenizer and of [int] *)

Example shlex_plain : Shlex.split "rm  -r   a b" = inr ["rm"; "-r"; "a"; "b"].
Proof. reflexivity. Qed.
Example shlex_escape : Shlex.split "a\ b 'c\d' e" = inr ["a b"; "c\d"; "e"].
Proof. reflexivity. Qed.
Example shlex_empty_quotes : Shlex.split "''" = inr [""].
Proof. reflexivity. Qed.
Example shlex_open : Shlex.split "echo 'unterminated" = inl Shlex.NoClosingQuotation.
Proof. reflexivity. Qed.
Example shlex_dangling : Shlex.split "echo \" = inl Shlex.NoEscapedCharacter.
Proof. reflexivity. Qed.

Example int_plain : int " 42 " = Some 42%Z.
Proof. reflexivity. Qed.
Example int_neg : int "-1_000" = Some (-1000)%Z.
Proof. reflexivity. Qed.
Example int_bad : int "1__0" = None /\ int "x" = None /\ int "" = None /\ int "_1" = None.
Proof. repeat split; reflexivity. Qed.

(** ** Strings and paths *)

Lemma chars_of_chars (l : list ascii) : Str.chars (Str.of_chars l) = l.
Proof. apply list_ascii_of_string_of_list_ascii. Qed.

Lemma append_cons (c : ascii) (a b : string) :
  String c a +:+ b = String c (a +:+ b).
Proof. reflexivity. Qed.

Lemma chars_app (a b : string) : Str.chars (a +:+ b) = Str.chars a ++ Str.chars b.
Proof.
  induction a as [|c a IH]; [reflexivity|].
  rewrite append_cons. unfold Str.chars in *. simpl. now rewrite IH.
Qed.

Lemma append_nil_r (a : string) : a +:+ "" = a.
Proof. induction a as [|c a IH]; [reflexivity | now rewrite append_cons, IH]. Qed.

Lemma append_assoc (a b c : string) : (a +:+ b) +:+ c = a +:+ (b +:+ c).
Proof. induction a as [|x a IH]; [reflexivity | now rewrite !append_cons, IH]. Qed.

Lemma append_same_l (a b : string) : a +:+ b = a -> b = "".
Proof.
  induction a as [|c a IH]; intros E; [assumption|].
  rewrite append_cons in E. injection E as E. auto.
Qed.

Lemma relative_to_Some (p r k : path) : relative_to p r = Some k <-> p = r ++ k.
Proof.
  revert p. induction r as [|x r IH]; intros p; simpl.
  - split; [now intros [= ->] | now intros ->].
  - destruct p as [|y p]; [split; discriminate|].
    destruct (String.eqb_spec x y) as [->|Hne].
    + rewrite IH. split; [now intros -> | now intros [= ->]].
    + split; [discriminate | intros [= -> _]; contradiction].
Qed.

Lemma relative_to_within (p r : path) : is_Some (relative_to p r) <-> within r p.
Proof.
  split.
  - intros [k Hk]. exists k. now apply relative_to_Some.
  - intros [k ->]. exists k. now apply relative_to_Some.
Qed.

Lemma relative_to_None (p r : path) : relative_to p r = None <-> ~ within r p.
Proof.
  rewrite <- relative_to_within. destruct (relative_to p r); split; intros E.
  - discriminate.
  - exfalso. apply E. eauto.
  - intros [? [=]].
  - reflexivity.
Qed.

Lemma lstat_app (n : node) (p q : path) :
  lstat n (p ++ q) = match lstat n p with Some m => lstat m q | None => None end.
Proof.
  revert n. induction p as [|x p IH]; intros n; simpl; [reflexivity|].
  destruct n as [| |entries]; try reflexivity.
  destruct (entries !! x); [apply IH | reflexivity].
Qed.


Lemma lstat_linkfree (n m : node) (cur rest : path) :
  lstat n (cur ++ rest) = Some m -> (forall t, m <> Symlink t) -> linkfree n cur rest.
Proof.
  intros Hl Hm k Hk t Ht.
  rewrite <- (take_drop k rest), app_assoc, lstat_app, Ht in Hl.
  destruct (drop k rest); simpl in Hl; [|discriminate].
  injection Hl as <-. now apply (Hm t).
Qed.

Lemma linkfree_snoc (n : node) (p : path) (x : string) :
  linkfree n [] p -> not_link n (p ++ [x]) -> linkfree n [] (p ++ [x]).
Proof.
  intros Hp Hx k Hk. rewrite length_app in Hk. simpl in Hk.
  destruct (decide (k <= List.length p)%nat) as [Hle|Hgt].
  - rewrite take_app_le by assumption. apply Hp. lia.
  - rewrite take_ge by (rewrite length_app; simpl; lia). assumption.
Qed.

(** ** [realpath] *)

Lemma joinrealpath_nil (d : nat) (n : node) (seen : list path) (cur : path) :
  joinrealpath d n seen cur [] = cur.
Proof. destruct d; reflexivity. Qed.

Lemma joinrealpath_cons (d : nat) (n : node) (seen : list path) (cur : path)
    (x : string) (rest : list string) :
  joinrealpath d n seen cur (x :: rest) =
    if String.eqb x "" || String.eqb x "." then joinrealpath d n seen cur rest
    else if String.eqb x ".." then joinrealpath d n seen (removelast cur) rest
    else
      match lstat n (cur ++ [x]) with
      | Some (Symlink target) =>
          if bool_decide (cur ++ [x] ∈ seen) then joinrealpath d n seen (cur ++ [x]) rest
          else
            match d with
            | O => joinrealpath d n seen (cur ++ [x]) rest
            | S d' =>
                joinrealpath d n seen
                  (joinrealpath d' n ((cur ++ [x]) :: seen)
                     (if is_absolute target then [] else cur)
                     (Str.split Str.slash target))
                  rest
            end
      | _ => joinrealpath d n seen (cur ++ [x]) rest
      end.
Proof. destruct d; reflexivity. Qed.

Lemma is_name_plain (x : string) :
  is_name x = true ->
  String.eqb x "" = false /\ String.eqb x "." = false /\ String.eqb x ".." = false.
Proof.
  unfold is_name. intros E.
  repeat (apply andb_prop in E as [E ?]).
  repeat split; now apply negb_true_iff.
Qed.

(** Below a path none of whose components is a link, resolution is the
    identity. *)
Lemma joinrealpath_linkfree (d : nat) (n : node) (seen : list path)
    (rest : list string) (cur : path) :
  canonical rest -> linkfree n cur rest ->
  joinrealpath d n seen cur rest = cur ++ rest.
Proof.
  revert cur. induction rest as [|x rest IH]; intros cur Hc Hl.
  - now rewrite joinrealpath_nil, app_nil_r.
  - apply Forall_cons in Hc as [Hx Hc].
    destruct (is_name_plain x Hx) as (E1 & E2 & E3).
    rewrite joinrealpath_cons, E1, E2, E3. simpl.
    assert (Hrest : linkfree n (cur ++ [x]) rest).
    { intros k Hk. rewrite <- app_assoc. apply (Hl (S k)). simpl. lia. }
    assert (Hx' : not_link n (cur ++ [x])).
    { apply (Hl 1%nat). simpl. lia. }
    rewrite (IH (cur ++ [x]) Hc Hrest), <- app_assoc.
    destruct (lstat n (cur ++ [x])) as [[| t |]|] eqn:E; try reflexivity.
    now destruct (Hx' t).
Qed.

Lemma realpath_canonical_dir (d : nat) (n m : node) (p : path) :
  canonical p -> lstat n p = Some m -> (forall t, m <> Symlink t) ->
  realpath d n p = p.
Proof.
  intros Hc Hl Hm. unfold realpath.
  rewrite joinrealpath_linkfree; [reflexivity | assumption |].
  now apply (lstat_linkfree n m).
Qed.


Lemma split_noslash (s : string) : Forall noslash (Str.split Str.slash s).
Proof.
  induction s as [|c s IH]; simpl.
  - repeat constructor.
  - destruct (Ascii.eqb c Str.slash) eqn:Ec.
    + constructor; [reflexivity | assumption].
    + destruct (Str.split Str.slash s) as [|w ws].
      * repeat constructor. unfold noslash. simpl. now rewrite Ec.
      * apply Forall_cons in IH as [Hw Hws]. constructor; [|assumption].
        unfold noslash in *. simpl. now rewrite Ec.
Qed.

Lemma split_name (x : string) : noslash x -> Str.split Str.slash x = [x].
Proof.
  induction x as [|c x IH]; intros Hx; [reflexivity|].
  unfold noslash in Hx. simpl in Hx. apply andb_prop in Hx as [Hc Hx].
  simpl. apply negb_true_iff in Hc. rewrite Hc, (IH Hx). reflexivity.
Qed.

Lemma is_name_noslash (x : string) : is_name x = true -> noslash x.
Proof. unfold is_name. intros E. now apply andb_prop in E as [_ E]. Qed.

Lemma filter_Forall {A : Type} (P : A -> Prop) (f : A -> bool) (l : list A) :
  Forall P l -> Forall P (List.filter f l).
Proof.
  induction 1 as [|x l Hx Hl IH]; simpl; [constructor|].
  destruct (f x); [constructor|]; assumption.
Qed.

Lemma parts_noslash (s : string) : Forall noslash (parts s).
Proof. apply filter_Forall, split_noslash. Qed.

Lemma parts_name (x : string) : is_name x = true -> parts x = [x].
Proof.
  intros Hx. unfold parts. rewrite (split_name x (is_name_noslash x Hx)).
  destruct (is_name_plain x Hx) as (E1 & E2 & _).
  simpl. unfold keeps. now rewrite E1, E2.
Qed.

Lemma canonical_noslash (p : path) : canonical p -> Forall noslash p.
Proof. intros Hc. eapply Forall_impl; [exact Hc | exact is_name_noslash]. Qed.

Lemma canonical_removelast (p : path) : canonical p -> canonical (removelast p).
Proof.
  induction 1 as [|x l Hx Hl IH]; simpl; [constructor|].
  destruct l; [constructor | constructor; assumption].
Qed.

(** Resolution produces canonical paths. *)
Lemma joinrealpath_canonical (n : node) (d : nat) :
  forall seen rest cur,
    Forall noslash rest -> canonical cur -> canonical (joinrealpath d n seen cur rest).
Proof.
  induction d as [d IHd] using lt_wf_ind.
  intros seen rest. induction rest as [|x rest IH]; intros cur Hr Hc.
  - now rewrite joinrealpath_nil.
  - apply Forall_cons in Hr as [Hx Hr]. rewrite joinrealpath_cons.
    destruct (String.eqb x "" || String.eqb x ".") eqn:E1; [now apply IH|].
    destruct (String.eqb x "..") eqn:E2; [now apply IH, canonical_removelast|].
    apply orb_false_elim in E1 as [E0 E1].
    assert (Hnew : canonical (cur ++ [x])).
    { apply Forall_app. split; [assumption|]. repeat constructor.
      unfold is_name. now rewrite E0, E1, E2, Hx. }
    destruct (lstat n (cur ++ [x])) as [[| target |]|]; try now apply IH.
    destruct (bool_decide _); [now apply IH|].
    destruct d as [|d']; [now apply IH|].
    apply IH; [assumption|].
    apply IHd; [lia | apply split_noslash |].
    destruct (is_absolute target); [constructor | assumption].
Qed.

Lemma realpath_canonical (n : node) (d : nat) (p : list string) :
  Forall noslash p -> canonical (realpath d n p).
Proof. intros Hp. apply joinrealpath_canonical; [assumption | constructor]. Qed.

Lemma canonical_name (p : path) :
  canonical p -> p = [] \/ is_name (name p) = true.
Proof.
  intros Hc. destruct p as [|x p] using rev_ind; [now left | right].
  unfold name. rewrite last_last.
  apply Forall_app in Hc as [_ Hx]. now apply Forall_cons in Hx as [Hx _].
Qed.

Lemma parts_canonical_name (p : path) :
  canonical p -> parts (name p) = [] \/ parts (name p) = [name p] /\ is_name (name p) = true.
Proof.
  intros Hc. destruct (canonical_name p Hc) as [-> | Hn].
  - now left.
  - right. split; [now apply parts_name | assumption].
Qed.

(** Resolution looks at the tree only to find symbolic links. *)
Lemma joinrealpath_same_links (a b : node) (d : nat) :
  same_links a b ->
  forall seen rest cur, joinrealpath d a seen cur rest = joinrealpath d b seen cur rest.
Proof.
  intros Hab. induction d as [d IHd] using lt_wf_ind.
  intros seen rest. induction rest as [|x rest IH]; intros cur.
  - now rewrite !joinrealpath_nil.
  - rewrite !joinrealpath_cons.
    destruct (String.eqb x "" || String.eqb x "."); [apply IH|].
    destruct (String.eqb x ".."); [apply IH|].
    destruct (lstat a (cur ++ [x])) as [[| ta |]|] eqn:Ea;
      destruct (lstat b (cur ++ [x])) as [[| tb |]|] eqn:Eb;
      try apply IH;
      try (apply Hab in Ea; congruence);
      try (apply Hab in Eb; congruence).
    apply Hab in Ea. rewrite Ea in Eb. injection Eb as <-.
    destruct (bool_decide _); [apply IH|].
    destruct d as [|d']; [apply IH|].
    rewrite (IHd d') by lia. apply IH.
Qed.



(** ** The path resolver *)

Section Resolver.
Context `{Host}.

Lemma canonical_form_canonical (s : state) (input : string) :
  well_formed s -> canonical (canonical_form s input).
Proof.
  intros [_ Hcwd]. unfold canonical_form, resolve.
  destruct (is_absolute input); apply realpath_canonical.
  - apply parts_noslash.
  - apply Forall_app. split; [now apply canonical_noslash | apply parts_noslash].
Qed.

(** What [_resolve_path] computes for a path that is typed out. *)
Lemma resolve_path_unfold (s : state) (input : string) :
  input <> "" ->
  _resolve_path s (Some input) =
    match relative_to (canonical_form s input) (root s) with
    | Some _ => canonical_form s input
    | None => resolve (fs s) (root s ++ parts (name (canonical_form s input)))
    end.
Proof. intros Hne. destruct input; [contradiction | reflexivity]. Qed.

(** Re-rooting a leaf name gives the child of [root] with that name,
    unless that child is a link. *)
Lemma clamp_inside (n : node) (r p : path) (entries : gmap string node) :
  canonical r -> lstat n r = Some (Dir entries) -> canonical p ->
  not_link n (r ++ parts (name p)) ->
  realpath symlink_depth n (r ++ parts (name p)) = r ++ parts (name p).
Proof.
  intros Hr Hd Hp Hl.
  assert (Hfree : linkfree n [] r) by (now apply (lstat_linkfree n (Dir entries))).
  destruct (parts_canonical_name p Hp) as [-> | [-> Hn]].
  - rewrite app_nil_r. now apply (realpath_canonical_dir _ n (Dir entries)).
  - unfold realpath. apply (joinrealpath_linkfree _ n [] (r ++ [name p]) []).
    + apply Forall_app. split; [assumption | now repeat constructor].
    + apply linkfree_snoc; [assumption|]. now rewrite (parts_name _ Hn) in Hl.
Qed.

Lemma resolve_path_canonical (s : state) (o : option string) :
  well_formed s -> canonical (_resolve_path s o).
Proof.
  intros Hwf. destruct o as [input|]; [|apply Hwf].
  destruct (decide (input = "")) as [->|Hne]; [apply Hwf|].
  rewrite resolve_path_unfold by assumption.
  destruct (relative_to _ _); [now apply canonical_form_canonical|].
  apply realpath_canonical, Forall_app. split.
  - apply canonical_noslash, Hwf.
  - apply parts_noslash.
Qed.

(** Without a link directly below [root] that could be followed out, the
    resolver stays inside the sandbox. *)
Lemma resolve_path_confined (s : state) (o : option string) (entries : gmap string node) :
  well_formed s -> within (root s) (cwd s) ->
  lstat (fs s) (root s) = Some (Dir entries) ->
  (forall x, not_link (fs s) (root s ++ [x])) ->
  within (root s) (_resolve_path s o).
Proof.
  intros Hwf Hin Hd Hl. destruct o as [input|]; [|exact Hin].
  destruct (decide (input = "")) as [->|Hne]; [exact Hin|].
  rewrite resolve_path_unfold by assumption.
  destruct (relative_to _ _) as [k|] eqn:E.
  - apply relative_to_within. rewrite E. eauto.
  - unfold resolve.
    pose proof (canonical_form_canonical s input Hwf) as Hp.
    rewrite (clamp_inside (fs s) (root s) _ entries); try assumption; try apply Hwf.
    + now exists (parts (name (canonical_form s input))).
    + destruct (parts_canonical_name _ Hp) as [-> | [-> _]]; [|apply Hl].
      rewrite app_nil_r. intros t. rewrite Hd. discriminate.
Qed.

End Resolver.

Section ResolverClaims.
Context `{Host}.


End ResolverClaims.

Lemma demo_well_formed : well_formed demo /\ well_formed plain.
Proof. repeat split; repeat constructor. Qed.

(** C1.  On a disk where the sandbox holds a link [passwd] to
    [/etc/passwd], the working directory being the root, [_resolve_path]
    returns [/etc/passwd] for [passwd] and for [/etc/passwd]: a path that
    is neither [root] nor below it, and [cat passwd] prints the file
    outside the sandbox. *)
Theorem resolve_path_follows_link_out :
  within (root demo) (cwd demo)
  /\ _resolve_path (H := bare_host) demo (Some "passwd") = ["etc"; "passwd"]
  /\ _resolve_path (H := bare_host) demo (Some "/etc/passwd") = ["etc"; "passwd"]
  /\ ~ within (root demo) (_resolve_path (H := bare_host) demo (Some "passwd"))
  /\ execute (H := bare_host) "cat passwd" demo
     = (Return tt, set_stdout "root:x:0:0" demo).
Proof.
  split; [now exists []|].
  split; [vm_compute; reflexivity|].
  split; [vm_compute; reflexivity|].
  split; [apply relative_to_None; vm_compute; reflexivity|].
  vm_compute; reflexivity.
Qed.




(** ** The tokenizer *)

Lemma emit_inr (a : list string) (r : Shlex.error + list string) (ts : list string) :
  Shlex.emit a r = inr ts -> exists l, r = inr l /\ ts = a ++ l.
Proof. destruct r as [e|l]; simpl; [discriminate | intros [= <-]; eauto]. Qed.

Lemma result_chars (quoted : bool) (token : list ascii) (t : string) :
  t ∈ Shlex.result quoted token -> Str.chars t = token.
Proof.
  unfold Shlex.result.
  destruct token, quoted; intros Ht; try (now apply elem_of_nil in Ht);
    apply list_elem_of_singleton in Ht as ->; apply chars_of_chars.
Qed.

Lemma escape_backslash (c : ascii) : Shlex.escape c = true -> c = Str.backslash.
Proof. apply Ascii.eqb_eq. Qed.

(** Every character of a token was read from the input, or was in the
    token under construction, or is the backslash that put the lexer in
    its escape state. *)
Lemma lex_chars (input : list ascii) :
  forall state escapedstate quoted token ts t c,
    Shlex.lex state escapedstate quoted token input = inr ts ->
    t ∈ ts -> c ∈ Str.chars t ->
    c ∈ token \/ c ∈ input \/ (state = Shlex.Escape /\ c = Str.backslash).
Proof.
  induction input as [|nextchar input IH]; intros state esc quoted token ts t c Hlex Ht Hc.
  - destruct state; simpl in Hlex; try discriminate; injection Hlex as <-;
      left; now rewrite <- (result_chars _ _ _ Ht).
  - assert (Hemit : forall st' esc' q' tok' l,
               Shlex.lex st' esc' q' tok' input = inr l -> t ∈ l ->
               (st' = Shlex.Escape -> nextchar = Str.backslash \/ state = Shlex.Escape) ->
               (forall x, x ∈ tok' -> x ∈ token \/ x = nextchar
                                      \/ (state = Shlex.Escape /\ x = Str.backslash)) ->
               c ∈ token \/ c ∈ nextchar :: input
               \/ (state = Shlex.Escape /\ c = Str.backslash)).
    { intros st' esc' q' tok' l Hl Htl Hesc Htok.
      destruct (IH st' esc' q' tok' l t c Hl Htl Hc) as [Hin | [Hin | [-> ->]]].
      - destruct (Htok c Hin) as [? | [-> | ?]]; auto.
        right; left; apply list_elem_of_here.
      - right; left. now apply list_elem_of_further.
      - destruct (Hesc eq_refl) as [<- | ->]; [|auto].
        right; left. apply list_elem_of_here. }
    assert (Hsame : forall x, x ∈ token -> x ∈ token \/ x = nextchar
                                \/ (state = Shlex.Escape /\ x = Str.backslash))
      by auto.
    assert (Hpush : forall x, x ∈ token ++ [nextchar] -> x ∈ token \/ x = nextchar
                                \/ (state = Shlex.Escape /\ x = Str.backslash)).
    { intros x Hx. apply elem_of_app in Hx as [?|Hx]; [auto|].
      apply list_elem_of_singleton in Hx. auto. }
    assert (Hone : forall x, x ∈ [nextchar] -> x ∈ token \/ x = nextchar
                                \/ (state = Shlex.Escape /\ x = Str.backslash)).
    { intros x Hx. apply list_elem_of_singleton in Hx. auto. }
    assert (Hnil : forall x : ascii, x ∈ [] -> x ∈ token \/ x = nextchar
                                \/ (state = Shlex.Escape /\ x = Str.backslash)).
    { intros x Hx. now apply elem_of_nil in Hx. }
    destruct state; simpl in Hlex.
    + (* Blank *)
      destruct (Shlex.whitespace nextchar).
      * destruct (Shlex.nonempty token || quoted).
        -- apply emit_inr in Hlex as (l & Hl & ->).
           apply elem_of_app in Ht as [Ht | Ht].
           ++ left. now rewrite <- (result_chars _ _ _ Ht).
           ++ now apply (Hemit _ _ _ _ _ Hl Ht).
        -- now apply (Hemit _ _ _ _ _ Hlex Ht).
      * destruct (Shlex.escape nextchar) eqn:Ee.
        -- apply (Hemit _ _ _ _ _ Hlex Ht); [|assumption].
           intros _. left. now apply escape_backslash.
        -- destruct (Shlex.quotes nextchar); now apply (Hemit _ _ _ _ _ Hlex Ht).
    + (* Word *)
      destruct (Shlex.whitespace nextchar).
      * destruct (Shlex.nonempty token || quoted).
        -- apply emit_inr in Hlex as (l & Hl & ->).
           apply elem_of_app in Ht as [Ht | Ht].
           ++ left. now rewrite <- (result_chars _ _ _ Ht).
           ++ now apply (Hemit _ _ _ _ _ Hl Ht).
        -- now apply (Hemit _ _ _ _ _ Hlex Ht).
      * destruct (Shlex.quotes nextchar); [now apply (Hemit _ _ _ _ _ Hlex Ht)|].
        destruct (Shlex.escape nextchar) eqn:Ee.
        -- apply (Hemit _ _ _ _ _ Hlex Ht); [|assumption].
           intros _. left. now apply escape_backslash.
        -- now apply (Hemit _ _ _ _ _ Hlex Ht).
    + (* Quote *)
      destruct (Ascii.eqb nextchar q); [now apply (Hemit _ _ _ _ _ Hlex Ht)|].
      destruct (Shlex.escape nextchar && Shlex.escapedquotes q) eqn:Ee.
      * apply andb_prop in Ee as [Ee _].
        apply (Hemit _ _ _ _ _ Hlex Ht); [|assumption].
        intros _. left. now apply escape_backslash.
      * now apply (Hemit _ _ _ _ _ Hlex Ht).
    + (* Escape *)
      apply (Hemit _ _ _ _ _ Hlex Ht).
      * auto.
      * intros x Hx. apply elem_of_app in Hx as [Hx | Hx].
        -- destruct esc as [| | q |]; auto.
           destruct (negb (Ascii.eqb nextchar Str.backslash) && negb (Ascii.eqb nextchar q)); auto.
           apply elem_of_app in Hx as [? | Hx]; auto.
           apply list_elem_of_singleton in Hx. auto.
        -- apply list_elem_of_singleton in Hx. auto.
Qed.

(** Once a token has been started, the lexer delivers at least one token
    or fails. *)
Lemma lex_started (input : list ascii) :
  forall state escapedstate quoted token,
    state <> Shlex.Blank ->
    (state = Shlex.Word -> Shlex.nonempty token || quoted = true) ->
    (state = Shlex.Escape -> escapedstate = Shlex.Word \/ exists q, escapedstate = Shlex.Quote q) ->
    Shlex.lex state escapedstate quoted token input <> inr [].
Proof.
  assert (Hres : forall quoted token,
             Shlex.nonempty token || quoted = true -> Shlex.result quoted token <> []).
  { intros quoted token. destruct token, quoted; simpl; discriminate. }
  assert (Hpush : forall (token : list ascii) c quoted,
             Shlex.nonempty (token ++ [c]) || quoted = true).
  { intros token c quoted. now destruct token. }
  induction input as [|nextchar input IH]; intros state esc quoted token Hst Hw He.
  - destruct state; simpl; try discriminate; [contradiction|].
    intros [= E]. now apply (Hres quoted token (Hw eq_refl)).
  - destruct state; simpl; [contradiction | | |].
    + destruct (Shlex.whitespace nextchar).
      * rewrite (Hw eq_refl). intros E. apply emit_inr in E as (l & _ & E).
        symmetry in E. apply app_eq_nil in E as [E _].
        now apply (Hres quoted token (Hw eq_refl)).
      * destruct (Shlex.quotes nextchar); [apply IH; [discriminate..|]; discriminate|].
        destruct (Shlex.escape nextchar); apply IH; try discriminate; auto.
    + destruct (Ascii.eqb nextchar q); [apply IH; [discriminate | now rewrite orb_true_r | discriminate]|].
      destruct (Shlex.escape nextchar && Shlex.escapedquotes q); apply IH; try discriminate; eauto.
    + destruct (He eq_refl) as [-> | [q ->]].
      * apply IH; [discriminate | auto | discriminate].
      * apply IH; [discriminate | discriminate | discriminate].
Qed.

(** A line without tokens is blank. *)
Lemma lex_nil_blank (input : list ascii) :
  forall escapedstate,
    Shlex.lex Shlex.Blank escapedstate false [] input = inr [] ->
    Forall (fun c => Shlex.whitespace c = true) input.
Proof.
  induction input as [|c input IH]; intros esc Hlex; [constructor|].
  simpl in Hlex. destruct (Shlex.whitespace c) eqn:Ew.
  - constructor; [exact Ew | now apply (IH esc)].
  - exfalso. revert Hlex.
    destruct (Shlex.escape c); [apply lex_started; [discriminate.. | auto]|].
    destruct (Shlex.quotes c); apply lex_started; try discriminate; auto.
Qed.

Lemma whitespace_isspace (c : ascii) : Shlex.whitespace c = true -> Str.isspace c = true.
Proof.
  unfold Shlex.whitespace. intros E.
  repeat (apply orb_prop in E as [E | E]); apply Ascii.eqb_eq in E; now subst.
Qed.

Lemma dropwhile_all (f : ascii -> bool) (l : list ascii) :
  Forall (fun c => f c = true) l -> Str.dropwhile f l = [].
Proof. induction 1 as [|c l Hc Hl IH]; simpl; [reflexivity | now rewrite Hc]. Qed.

Lemma split_nil_strip (line : string) :
  Shlex.split line = inr [] -> Str.strip line = "".
Proof.
  intros Hs. apply lex_nil_blank in Hs.
  unfold Str.strip. rewrite (dropwhile_all Str.isspace (Str.chars line)); [reflexivity|].
  eapply Forall_impl; [exact Hs | exact whitespace_isspace].
Qed.

(** ** The dispatcher *)


Section Dispatcher.
Context `{Host}.

Lemma commands_None (cmd : string) : commands !! cmd = None <-> cmd ∉ command_names.
Proof. unfold commands. rewrite <- not_elem_of_list_to_map. reflexivity. Qed.

Lemma print_err_reported (msg : string) (s : state) :
  _print_err msg s = (Return tt, reported msg s).
Proof. reflexivity. Qed.

Lemma execute_tokens (line cmd : string) (args : list string) (s : state) :
  Shlex.split line = inr (cmd :: args) ->
  execute line s =
    match commands !! cmd with
    | None => (Return tt, reported ("unknown command: " +:+ cmd +:+ ". Try 'help'.") s)
    | Some handler =>
        try_except (handler args) is_Exception (fun e => _print_err (exn_str e)) s
    end.
Proof. intros E. unfold execute. rewrite E. now destruct (commands !! cmd). Qed.

(** C4, as amended.  For a line whose tokenization yields no token,
    [execute] invokes no handler, writes nothing, reports nothing and
    leaves [cwd] and the rest of the session as they were, but it does not
    return: unpacking the command word raises [ValueError], which leaves
    [execute].  Such a line is blank, so [Terminal.run] skips it before
    [execute] is called. *)
Theorem execute_without_tokens (line : string) (s : state) :
  Shlex.split line = inr [] ->
  execute line s = (Raise unpack_error, s) /\ Str.strip line = "".
Proof.
  intros E. split; [|now apply split_nil_strip].
  unfold execute. now rewrite E.
Qed.

(** C5.  When tokenization fails, [execute] writes one error line with
    the parse error and returns; nothing else in the session changes, so
    no handler ran and [cwd] is as before.  The unterminated quote of
    [echo 'unterminated] is such a failure, and for the well-quoted
    [echo "a b" c] the tokens are split at quotes: the line written is
    [a b c]. *)
Theorem parse_error_reported (line : string) (e : Shlex.error) (s : state) :
  Shlex.split line = inl e ->
  execute line s = (Return tt, reported ("parse error: " +:+ Shlex.message e) s)
  /\ cwd (snd (execute line s)) = cwd s
  /\ (Str.lf ∉ Str.chars ("error: parse error: " +:+ Shlex.message e))
  /\ Shlex.split "echo 'unterminated" = inl Shlex.NoClosingQuotation
  /\ execute quoting_line s
     = (Return tt, set_stdout (stdout s +:+ "a b c" +:+ Str.newline) s).
Proof.
  intros E.
  assert (Hx : execute line s
               = (Return tt, reported ("parse error: " +:+ Shlex.message e) s)).
  { unfold execute. now rewrite E. }
  split; [exact Hx|]. split; [now rewrite Hx|]. split.
  - destruct e; by_evaluation.
  - split; [reflexivity|].
    rewrite (execute_tokens quoting_line "echo" ["a b"; "c"]) by reflexivity.
    reflexivity.
Qed.

(** C6.  When the first token of the line is not one of the registered
    names, compared exactly, [execute] writes one error line that names
    the token and returns; [cwd] and the rest of the session are as
    before.  The message holds no line feed when the line holds none. *)
Theorem unknown_command_reported (line cmd : string) (args : list string) (s : state) :
  Shlex.split line = inr (cmd :: args) -> cmd ∉ command_names ->
  execute line s
  = (Return tt, reported ("unknown command: " +:+ cmd +:+ ". Try 'help'.") s)
  /\ cwd (snd (execute line s)) = cwd s
  /\ (Str.lf ∉ Str.chars line ->
      Str.lf ∉ Str.chars ("error: unknown command: " +:+ cmd +:+ ". Try 'help'.")).
Proof.
  intros E Hcmd.
  assert (Hx : execute line s
               = (Return tt, reported ("unknown command: " +:+ cmd +:+ ". Try 'help'.") s)).
  { rewrite (execute_tokens line cmd args s E).
    apply commands_None in Hcmd. now rewrite Hcmd. }
  split; [exact Hx|]. split; [now rewrite Hx|].
  intros Hline Hmsg. apply Hline.
  rewrite !chars_app in Hmsg.
  apply elem_of_app in Hmsg as [Hmsg | Hmsg].
  { exfalso. revert Hmsg. by_evaluation. }
  apply elem_of_app in Hmsg as [Hmsg | Hmsg].
  - destruct (lex_chars _ _ _ _ _ _ cmd Str.lf E (list_elem_of_here _ _) Hmsg)
      as [Hin | [Hin | [[=] _]]]; [|exact Hin].
    now apply elem_of_nil in Hin.
  - exfalso. revert Hmsg. by_evaluation.
Qed.

End Dispatcher.

(** C4, the claim as stated fails: on the empty line tokenization yields
    no token and [execute] raises instead of returning. *)
Lemma execute_empty_line_raises :
  Shlex.split "" = inr []
  /\ execute (H := bare_host) "" plain = (Raise unpack_error, plain)
  /\ fst (execute (H := bare_host) "" plain) <> Return tt.
Proof. repeat split. discriminate. Qed.

Lemma execute_without_tokens_witness :
  execute (H := bare_host) "  " plain = (Raise unpack_error, plain) /\ Str.strip "  " = "".
Proof. apply (execute_without_tokens (H := bare_host) "  " plain). reflexivity. Defined.

Lemma parse_error_reported_witness :
  execute (H := bare_host) "echo 'unterminated" plain
  = (Return tt, reported "parse error: No closing quotation" plain).
Proof.
  apply (parse_error_reported (H := bare_host) "echo 'unterminated"
           Shlex.NoClosingQuotation plain).
  reflexivity.
Defined.

Lemma unknown_command_reported_witness :
  execute (H := bare_host) "frobnicate" plain
  = (Return tt, reported "unknown command: frobnicate. Try 'help'." plain).
Proof.
  apply (unknown_command_reported (H := bare_host) "frobnicate" "frobnicate" [] plain).
  - reflexivity.
  - by_evaluation.
Defined.

(** ** What the handlers do to [root] and [cwd] *)

Section Frame.
Context `{Host}.

Lemma keeps_ret {A : Type} (a : A) : keeps_dirs (mret a : M A).
Proof. intros s. now split. Qed.

Lemma keeps_raise {A : Type} (e : exn) : keeps_dirs (raise e : M A).
Proof. intros s. now split. Qed.

Lemma keeps_gets {A : Type} (f : state -> A) : keeps_dirs (gets f).
Proof. intros s. now split. Qed.

Lemma keeps_modify (f : state -> state) :
  (forall s, root (f s) = root s /\ cwd (f s) = cwd s) -> keeps_dirs (modify f).
Proof. intros Hf s. apply Hf. Qed.

Lemma keeps_bind {A B : Type} (m : M A) (f : A -> M B) :
  keeps_dirs m -> (forall a, keeps_dirs (f a)) -> keeps_dirs (m ≫= f).
Proof.
  intros Hm Hf s. unfold mbind, M_bind.
  destruct (Hm s) as [Hr Hc]. destruct (m s) as [[a|e] s']; simpl in *.
  - destruct (Hf a s') as [Hr' Hc']. split; congruence.
  - now split.
Qed.

Lemma keeps_try {A : Type} (m : M A) (caught : exn -> bool) (h : exn -> M A) :
  keeps_dirs m -> (forall e, keeps_dirs (h e)) -> keeps_dirs (try_except m caught h).
Proof.
  intros Hm Hh s. unfold try_except.
  destruct (Hm s) as [Hr Hc]. destruct (m s) as [[a|e] s']; simpl in *.
  - now split.
  - destruct (caught e); [|now split].
    destruct (Hh e s') as [Hr' Hc']. split; congruence.
Qed.

Lemma keeps_for_each {A : Type} (body : A -> M unit) (l : list A) :
  (forall x, keeps_dirs (body x)) -> keeps_dirs (for_each body l).
Proof.
  intros Hb. induction l as [|x l IH]; simpl.
  - apply keeps_ret.
  - apply keeps_bind; [apply Hb | intros _; exact IH].
Qed.

Lemma keeps_host_call (f : state -> exn + string) : keeps_dirs (host_call f).
Proof. intros s. unfold host_call. now destruct (f s). Qed.

Lemma keeps_write (text : string) : keeps_dirs (write text).
Proof. now apply keeps_modify. Qed.

Lemma keeps_print (text : string) : keeps_dirs (print text).
Proof. apply keeps_write. Qed.

Lemma keeps_print_err (msg : string) : keeps_dirs (_print_err msg).
Proof. apply keeps_print. Qed.

Lemma keeps_syscall (f : node -> exn + node) : keeps_dirs (syscall f).
Proof.
  apply keeps_bind; [apply keeps_gets|]. intros n.
  destruct (f n); [apply keeps_raise | now apply keeps_modify].
Qed.

Lemma keeps_input (prompt : string) : keeps_dirs (input prompt).
Proof.
  apply keeps_bind; [apply keeps_write | intros _].
  apply keeps_bind; [apply keeps_gets | intros [|line l]].
  - apply keeps_raise.
  - apply keeps_bind; [now apply keeps_modify | intros _; apply keeps_ret].
Qed.

Lemma keeps_confirm (prompt : string) : keeps_dirs (_confirm prompt).
Proof.
  apply keeps_try; [|intros _; apply keeps_ret].
  apply keeps_bind; [apply keeps_input | intros ?; apply keeps_ret].
Qed.

End Frame.

Create HintDb keeps.
#[local] Hint Resolve keeps_ret keeps_raise keeps_gets keeps_host_call keeps_write
  keeps_print keeps_print_err keeps_syscall keeps_input keeps_confirm : keeps.

(** One step through a handler's body. *)
Ltac keeps_step :=
  first
    [ apply keeps_bind; [|intros ?]
    | apply keeps_try; [|intros ?]
    | apply keeps_for_each; intros ?
    | solve [auto with keeps]
    | apply keeps_modify; intros ?; now split
    | match goal with
      | |- keeps_dirs (match ?x with _ => _ end) => destruct x
      end ].

Ltac keeps := repeat keeps_step.

Section FrameHandlers.
Context `{Host}.

Lemma keeps_path_exists p : keeps_dirs (path_exists p).
Proof. unfold path_exists. keeps. Qed.
Lemma keeps_path_is_dir p : keeps_dirs (path_is_dir p).
Proof. unfold path_is_dir. keeps. Qed.
Lemma keeps_path_is_file p : keeps_dirs (path_is_file p).
Proof. unfold path_is_file. keeps. Qed.
Lemma keeps_path_mkdir p : keeps_dirs (path_mkdir p).
Proof. unfold path_mkdir. keeps. Qed.
Lemma keeps_read_text p : keeps_dirs (read_text p).
Proof. unfold read_text. keeps. Qed.

#[local] Hint Resolve keeps_path_exists keeps_path_is_dir keeps_path_is_file
  keeps_path_mkdir keeps_read_text : keeps.

Lemma keeps_help args : keeps_dirs (cmd_help args).
Proof. unfold cmd_help. keeps. Qed.
Lemma keeps_pwd args : keeps_dirs (cmd_pwd args).
Proof. unfold cmd_pwd. keeps. Qed.
Lemma keeps_ls args : keeps_dirs (cmd_ls args).
Proof.
  unfold cmd_ls, ls_entry. keeps.
Qed.
Lemma keeps_mkdir args : keeps_dirs (cmd_mkdir args).
Proof. unfold cmd_mkdir. keeps. Qed.
Lemma keeps_rm args : keeps_dirs (cmd_rm args).
Proof.
  unfold cmd_rm, rm_item. keeps.
Qed.
Lemma keeps_touch args : keeps_dirs (cmd_touch args).
Proof.
  unfold cmd_touch, touch_item. keeps.
Qed.
Lemma keeps_cat args : keeps_dirs (cmd_cat args).
Proof.
  unfold cmd_cat, cat_item. keeps.
Qed.
Lemma keeps_echo args : keeps_dirs (cmd_echo args).
Proof. unfold cmd_echo. keeps. Qed.
Lemma keeps_cp args : keeps_dirs (cmd_cp args).
Proof. unfold cmd_cp. keeps. Qed.
Lemma keeps_mv args : keeps_dirs (cmd_mv args).
Proof. unfold cmd_mv. keeps. Qed.
Lemma keeps_head_tail args :
  keeps_dirs (cmd_head args) /\ keeps_dirs (cmd_tail args).
Proof.
  unfold cmd_head, cmd_tail, head_item, _read_n_lines.
  split; keeps.
Qed.
Lemma keeps_ps args : keeps_dirs (cmd_ps args).
Proof. unfold cmd_ps. keeps. Qed.
Lemma keeps_sysmon args : keeps_dirs (cmd_sysmon args).
Proof. unfold cmd_sysmon. keeps. Qed.
Lemma keeps_df args : keeps_dirs (cmd_df args).
Proof. unfold cmd_df. keeps. Qed.
Lemma keeps_history args : keeps_dirs (cmd_history args).
Proof. unfold cmd_history. keeps. Qed.
Lemma keeps_exit args : keeps_dirs (cmd_exit args).
Proof. unfold cmd_exit. keeps. Qed.

End FrameHandlers.

(** ** [cd] and the working directory *)

Section WorkingDirectory.
Context `{Host}.

(** [cmd_cd] in one piece. *)
Lemma cmd_cd_unfold (args : list string) (s : state) :
  cmd_cd args s =
    let p := cd_target s args in
    if negb (exists_ symlink_depth (fs s) p) || negb (is_dir symlink_depth (fs s) p)
    then (Return tt, reported "no such directory" s)
    else
      match relative_to p (root s) with
      | None => (Return tt, reported "access outside project root is blocked" s)
      | Some _ => (Return tt, set_cwd p s)
      end.
Proof.
  unfold cmd_cd, cd_target.
  destruct args as [|a args]; unfold mbind, M_bind, gets, path_exists, path_is_dir; simpl;
    match goal with |- context [negb ?a || negb ?b] => destruct (negb a || negb b) end;
    try reflexivity;
    match goal with |- context [relative_to ?p ?r] => destruct (relative_to p r) end;
    reflexivity.
Qed.

Lemma cmd_cd_returns (args : list string) (s : state) : fst (cmd_cd args s) = Return tt.
Proof.
  rewrite cmd_cd_unfold. simpl.
  destruct (negb _ || negb _); [reflexivity|]. now destruct (relative_to _ _).
Qed.

Lemma cmd_cd_root (args : list string) (s : state) : root (snd (cmd_cd args s)) = root s.
Proof.
  rewrite cmd_cd_unfold. simpl.
  destruct (negb _ || negb _); [reflexivity|]. now destruct (relative_to _ _).
Qed.

(** A handler found in the registry under a name other than [cd] keeps
    [root] and [cwd]. *)
Lemma registry_keeps (cmd : string) (handler : list string -> M unit) (args : list string) :
  commands !! cmd = Some handler -> cmd <> "cd" -> keeps_dirs (handler args).
Proof.
  intros Hlook Hcd. unfold commands in Hlook.
  apply elem_of_list_to_map_2 in Hlook.
  repeat (apply elem_of_cons in Hlook as [[= -> ->] | Hlook];
          [first [ contradiction
                 | apply keeps_help | apply keeps_pwd | apply keeps_ls | apply keeps_mkdir
                 | apply keeps_rm | apply keeps_touch | apply keeps_cat | apply keeps_echo
                 | apply keeps_cp | apply keeps_mv | apply keeps_head_tail
                 | apply keeps_ps | apply keeps_sysmon | apply keeps_df
                 | apply keeps_history | apply keeps_exit ]|]).
  now apply elem_of_nil in Hlook.
Qed.

Lemma commands_cd : commands !! "cd" = Some cmd_cd.
Proof. reflexivity. Qed.

(** [execute] either leaves [root] and [cwd] alone or runs [cmd_cd]. *)
Lemma execute_dirs (line : string) (s : state) :
  (root (snd (execute line s)) = root s /\ cwd (snd (execute line s)) = cwd s)
  \/ exists args, Shlex.split line = inr ("cd" :: args) /\ execute line s = cmd_cd args s.
Proof.
  unfold execute. destruct (Shlex.split line) as [e | [|cmd args]] eqn:E.
  - left. apply keeps_print_err.
  - left. now split.
  - destruct (decide (cmd = "cd")) as [-> | Hcd].
    + right. exists args. split; [reflexivity|].
      rewrite commands_cd. unfold try_except.
      pose proof (cmd_cd_returns args s) as Hr.
      destruct (cmd_cd args s) as [[[]|e] s']; [reflexivity | discriminate].
    + left. destruct (commands !! cmd) as [handler|] eqn:Hlook.
      * apply keeps_try; [now apply (registry_keeps cmd) | intros e; apply keeps_print_err].
      * apply keeps_print_err.
Qed.

Lemma execute_root (line : string) (s : state) : root (snd (execute line s)) = root s.
Proof.
  destruct (execute_dirs line s) as [[Hr _] | (args & _ & ->)]; [exact Hr | apply cmd_cd_root].
Qed.

Lemma init_dirs (root_arg : string) (world : node) (lines : list string) (s : state) :
  init root_arg world lines = inr s ->
  cwd s = root s /\ root s = resolve world (parts root_arg).
Proof.
  unfold init. destruct (mkdir _ _ _); [discriminate|]. now intros [= <-].
Qed.

(** In every state of a session [root] and [cwd] are canonical paths. *)
Lemma reachable_well_formed (s : state) : reachable s -> well_formed s.
Proof.
  induction 1 as [root_arg world lines s Hinit | line s Hs [IHr IHc]].
  - unfold well_formed. destruct (init_dirs _ _ _ _ Hinit) as [-> ->].
    split; apply realpath_canonical, parts_noslash.
  - split; [now rewrite execute_root|].
    destruct (execute_dirs line s) as [[_ ->] | (args & _ & ->)]; [assumption|].
    rewrite cmd_cd_unfold. simpl.
    destruct (negb _ || negb _); [assumption|].
    destruct (relative_to _ _); [|assumption]. simpl.
    destruct args; [assumption|]. now apply resolve_path_canonical.
Qed.

Lemma reachable_within (s : state) : reachable s -> within (root s) (cwd s).
Proof.
  induction 1 as [root_arg world lines s Hinit | line s Hs IH].
  - destruct (init_dirs _ _ _ _ Hinit) as [-> _]. exists []. now rewrite app_nil_r.
  - rewrite execute_root.
    destruct (execute_dirs line s) as [[_ ->] | (args & _ & ->)]; [assumption|].
    rewrite cmd_cd_unfold. simpl.
    destruct (negb _ || negb _); [assumption|].
    destruct (relative_to _ _) eqn:E; [|assumption]. simpl.
    apply relative_to_within. rewrite E. eauto.
Qed.

(** C3.  In every state of a session [cwd] is [root] or below it.  A call
    of [execute] never changes [root]; when it changes [cwd], the line
    was a [cd] whose target exists, is a directory and is [root] or below
    it, and [cwd] is that target.  A [cd] whose target is missing, is not
    a directory or fails the second confinement check writes one error
    line and leaves the session as it was. *)
Theorem cwd_invariant (s : state) (line : string) :
  reachable s ->
  within (root s) (cwd s)
  /\ root (snd (execute line s)) = root s
  /\ within (root (snd (execute line s))) (cwd (snd (execute line s)))
  /\ (cwd (snd (execute line s)) <> cwd s ->
      exists args,
        Shlex.split line = inr ("cd" :: args)
        /\ exists_ symlink_depth (fs s) (cd_target s args) = true
        /\ is_dir symlink_depth (fs s) (cd_target s args) = true
        /\ within (root s) (cd_target s args)
        /\ cwd (snd (execute line s)) = cd_target s args)
  /\ (forall args,
        Shlex.split line = inr ("cd" :: args) ->
        exists_ symlink_depth (fs s) (cd_target s args) = false
        \/ is_dir symlink_depth (fs s) (cd_target s args) = false
        \/ ~ within (root s) (cd_target s args) ->
        exists msg, execute line s = (Return tt, reported msg s)).
Proof.
  intros Hs.
  split; [now apply reachable_within|].
  split; [apply execute_root|].
  split; [apply (reachable_within _ (reachable_execute line s Hs))|].
  split.
  - intros Hmoved.
    destruct (execute_dirs line s) as [[_ Hc] | (args & Hsplit & Hx)]; [contradiction|].
    exists args. split; [exact Hsplit|].
    rewrite Hx, cmd_cd_unfold in Hmoved |- *. simpl in *.
    destruct (exists_ _ _ _); [|now destruct Hmoved].
    destruct (is_dir _ _ _); [|now destruct Hmoved]. simpl in *.
    destruct (relative_to _ _) eqn:E; [|now destruct Hmoved].
    repeat split. apply relative_to_within. rewrite E. eauto.
  - intros args Hsplit Hbad.
    rewrite (execute_tokens line "cd" args s Hsplit), commands_cd.
    unfold try_except.
    pose proof (cmd_cd_returns args s) as Hr.
    destruct (cmd_cd args s) as [[[]|e] s'] eqn:Hcd; [|discriminate]. clear Hr.
    rewrite cmd_cd_unfold in Hcd. cbv zeta in Hcd.
    destruct Hbad as [Hbad | [Hbad | Hout]]; try rewrite Hbad in Hcd.
    + injection Hcd as <-. eauto.
    + rewrite orb_true_r in Hcd. injection Hcd as <-. eauto.
    + destruct (negb _ || negb _); [injection Hcd as <-; eauto|].
      apply relative_to_None in Hout. rewrite Hout in Hcd.
      injection Hcd as <-. eauto.
Qed.

End WorkingDirectory.

Section RoundTrip.
Context `{Host}.







End RoundTrip.

Lemma plain_reachable : reachable (H := bare_host) plain.
Proof. apply (reachable_init "/srv/box" plain_disk [] plain). vm_compute. reflexivity. Qed.

Lemma cwd_invariant_witness :
  within (root plain) (cwd plain)
  /\ within (root (snd (execute (H := bare_host) "cd docs" plain)))
       (cwd (snd (execute (H := bare_host) "cd docs" plain))).
Proof.
  destruct (cwd_invariant (H := bare_host) plain "cd docs" plain_reachable)
    as (Hin & _ & Hin' & _).
  exact (conj Hin Hin').
Defined.


(** ** The argument loop of [ls] *)

Section Listing.
Context `{Host}.







End Listing.


(** ** The loops over several paths *)



Section Loops.
Context `{Host}.

Lemma for_each_app {A : Type} (body : A -> M unit) (pre post : list A) (s s1 : state) :
  for_each body pre s = (Return tt, s1) ->
  for_each body (pre ++ post) s = for_each body post s1.
Proof.
  revert s. induction pre as [|x pre IH]; intros s Hpre; simpl in *.
  - now injection Hpre as <-.
  - unfold mbind, M_bind in *. destruct (body x s) as [[[]|e] s'].
    + now apply IH.
    + discriminate.
Qed.

Lemma for_each_cons {A : Type} (body : A -> M unit) (x : A) (l : list A) (s s' : state) :
  body x s = (Return tt, s') -> for_each body (x :: l) s = for_each body l s'.
Proof. intros E. simpl. unfold mbind, M_bind. now rewrite E. Qed.

(** An item of [cat], [head] or [tail] that is missing or is not a file:
    one error line. *)
Lemma cat_item_fails (f : string) (s : state) :
  exists_ symlink_depth (fs s) (_resolve_path s (Some f)) = false
  \/ is_file symlink_depth (fs s) (_resolve_path s (Some f)) = false ->
  cat_item f s = (Return tt, reported ("no such file: " +:+ f) s).
Proof.
  intros Hbad. unfold cat_item. run_reads.
  destruct Hbad as [-> | ->]; [reflexivity|]. now rewrite orb_true_r.
Qed.

Lemma head_item_fails (n : Z) (tail : bool) (f : string) (s : state) :
  exists_ symlink_depth (fs s) (_resolve_path s (Some f)) = false
  \/ is_file symlink_depth (fs s) (_resolve_path s (Some f)) = false ->
  head_item n tail f s = (Return tt, reported ("no such file: " +:+ f) s).
Proof.
  intros Hbad. unfold head_item. run_reads.
  destruct Hbad as [-> | ->]; [reflexivity|]. now rewrite orb_true_r.
Qed.

(** An item of [rm] that is missing, or is a directory when [-r] was not
    given: one error line. *)
Lemma rm_item_missing (recursive : bool) (f : string) (s : state) :
  exists_ symlink_depth (fs s) (_resolve_path s (Some f)) = false ->
  rm_item recursive f s = (Return tt, reported ("not found: " +:+ f) s).
Proof. intros Hbad. unfold rm_item. run_reads. now rewrite Hbad. Qed.

Lemma rm_item_directory (f : string) (s : state) :
  is_dir symlink_depth (fs s) (_resolve_path s (Some f)) = true ->
  rm_item false f s = (Return tt, reported ("is a directory (use -r): " +:+ f) s).
Proof.
  intros Hdir.
  assert (He : exists_ symlink_depth (fs s) (_resolve_path s (Some f)) = true).
  { unfold is_dir, exists_ in *. now destruct (stat _ _ _). }
  unfold rm_item. run_reads. rewrite He. cbv beta iota delta [negb].
  run_reads. now rewrite Hdir.
Qed.

Lemma rm_args_nonempty (args : list string) (recursive : bool) (paths : list string) :
  rm_args args = (recursive, paths) -> paths <> [] -> args <> [].
Proof. intros E Hp ->. injection E as _ <-. contradiction. Qed.

Lemma head_args_nonempty (args : list string) (n : Z) (files : list string) :
  head_args args 10 [] = Some (n, files) -> files <> [] -> args <> [].
Proof. intros E Hp ->. injection E as _ <-. contradiction. Qed.

(** C7, as amended.  In [cat], [head], [tail] and [rm], when the loop
    over the paths reaches an item that fails one of the checks the
    handler makes itself (for [cat], [head] and [tail]: the path is
    missing or is not a file; for [rm]: the path is missing, or is a
    directory and [-r] was not given), one error line is written for that
    item and the loop goes on with all the remaining items.  An exception
    raised while an item of [rm] is removed leaves the loop: the
    remaining items are not processed. *)
Theorem checked_failure_does_not_stop_the_loop
    (args pre post : list string) (f : string) (s s1 : state) :
  let p := _resolve_path s1 (Some f) in
  let missing := exists_ symlink_depth (fs s1) p = false in
  let not_a_file := is_file symlink_depth (fs s1) p = false in
  let directory := is_dir symlink_depth (fs s1) p = true in
  (args = pre ++ f :: post ->
   for_each cat_item pre s = (Return tt, s1) -> missing \/ not_a_file ->
   cmd_cat args s = for_each cat_item post (reported ("no such file: " +:+ f) s1))
  /\ (forall n,
        head_args args 10 [] = Some (n, pre ++ f :: post) ->
        (for_each (head_item n false) pre s = (Return tt, s1) -> missing \/ not_a_file ->
         cmd_head args s
         = for_each (head_item n false) post (reported ("no such file: " +:+ f) s1))
        /\ (for_each (head_item n true) pre s = (Return tt, s1) -> missing \/ not_a_file ->
            cmd_tail args s
            = for_each (head_item n true) post (reported ("no such file: " +:+ f) s1)))
  /\ (forall recursive,
        rm_args args = (recursive, pre ++ f :: post) ->
        for_each (rm_item recursive) pre s = (Return tt, s1) ->
        (missing ->
         cmd_rm args s
         = for_each (rm_item recursive) post (reported ("not found: " +:+ f) s1))
        /\ (directory -> recursive = false ->
            cmd_rm args s
            = for_each (rm_item recursive) post
                (reported ("is a directory (use -r): " +:+ f) s1))
        /\ (forall e s2,
              rm_item recursive f s1 = (Raise e, s2) -> cmd_rm args s = (Raise e, s2))).
Proof.
  intros p missing not_a_file directory.
  assert (Hne : pre ++ f :: post <> []) by now destruct pre.
  split; [|split].
  - intros -> Hpre Hbad. unfold cmd_cat.
    destruct (pre ++ f :: post) eqn:E; [contradiction|]. rewrite <- E.
    rewrite (for_each_app _ _ _ _ _ Hpre).
    apply for_each_cons. now apply cat_item_fails.
  - intros n Hargs.
    pose proof (head_args_nonempty _ _ _ Hargs Hne) as Hargs'.
    unfold cmd_head, cmd_tail. destruct args; [contradiction|]. rewrite Hargs.
    split; intros Hpre Hbad; rewrite (for_each_app _ _ _ _ _ Hpre);
      apply for_each_cons; now apply head_item_fails.
  - intros recursive Hargs Hpre.
    pose proof (rm_args_nonempty _ _ _ Hargs Hne) as Hargs'.
    unfold cmd_rm. destruct args; [contradiction|]. rewrite Hargs.
    rewrite (for_each_app _ _ _ _ _ Hpre). split; [|split].
    + intros Hbad. apply for_each_cons. now apply rm_item_missing.
    + intros Hdir ->. apply for_each_cons. now apply rm_item_directory.
    + intros e s2 Hraise. cbn [for_each]. unfold mbind, M_bind. now rewrite Hraise.
Qed.

End Loops.

Lemma checked_failure_does_not_stop_the_loop_witness :
  cmd_cat (H := bare_host) ["notes"; "nowhere"; "docs"; "notes"] plain
  = for_each (cat_item (H := bare_host)) ["docs"; "notes"]
      (reported "no such file: nowhere" (set_stdout "todo" plain))
  /\ stdout (snd (cmd_cat (H := bare_host) ["notes"; "nowhere"; "docs"; "notes"] plain))
     = "todo" +:+ "error: no such file: nowhere" +:+ Str.newline
       +:+ "error: no such file: docs" +:+ Str.newline +:+ "todo".
Proof.
  pose proof (checked_failure_does_not_stop_the_loop (H := bare_host)
                ["notes"; "nowhere"; "docs"; "notes"] ["notes"] ["docs"; "notes"]
                "nowhere" plain (set_stdout "todo" plain)) as Hthm.
  cbv zeta in Hthm. destruct Hthm as [Hcat _].
  assert (Hpre : for_each (cat_item (H := bare_host)) ["notes"] plain
                 = (Return tt, set_stdout "todo" plain)) by (vm_compute; reflexivity).
  assert (Hbad : exists_ (symlink_depth (Host := bare_host)) (fs (set_stdout "todo" plain))
                   (_resolve_path (H := bare_host) (set_stdout "todo" plain) (Some "nowhere"))
                 = false) by (vm_compute; reflexivity).
  pose proof (Hcat eq_refl Hpre (or_introl Hbad)) as Hloop.
  split; [exact Hloop|]. vm_compute. reflexivity.
Defined.

(** C7, the claim as stated fails.  With the sandbox root at [/] and the
    answer [y] waiting on standard input, [rm -r . x] asks, empties [/]
    and then fails with [EBUSY] on [/] itself: the exception leaves the
    loop, [execute] reports it once, and [x] is never looked at.  Had the
    loop gone on, [x] would have been reported as not found. *)
Lemma rm_stops_at_a_raising_item :
  rm_args ["-r"; "."; "x"] = (true, ["."; "x"])
  /\ rm_item (H := bare_host) true "." at_slash = (Raise (os_error EBUSY []), emptied)
  /\ cmd_rm (H := bare_host) ["-r"; "."; "x"] at_slash = (Raise (os_error EBUSY []), emptied)
  /\ for_each (rm_item (H := bare_host) true) ["x"] emptied
     = (Return tt, reported "not found: x" emptied)
  /\ execute (H := bare_host) "rm -r . x" at_slash
     = (Return tt, reported "[Errno 16] Device or resource busy: '/'" emptied).
Proof. repeat split; vm_compute; reflexivity. Qed.

(** ** [mkdir] *)

Lemma same_links_refl (n : node) : same_links n n.
Proof. now intros p t. Qed.

Lemma same_links_trans (a b c : node) : same_links a b -> same_links b c -> same_links a c.
Proof. intros Hab Hbc p t. now rewrite (Hab p t). Qed.

Lemma os_mkdir_lstat (p : path) :
  forall n n', os_mkdir n p = inr n' -> lstat n' p = Some (Dir ∅).
Proof.
  induction p as [|x p IH]; intros n n' Hm; [discriminate|].
  destruct p as [|y p].
  - simpl in Hm. destruct n as [| |entries]; try discriminate.
    destruct (entries !! x); [discriminate|]. injection Hm as <-.
    simpl. now rewrite lookup_insert_eq.
  - change (os_mkdir n (x :: y :: p))
      with (below n x ENOENT (fun child => os_mkdir child (y :: p))) in Hm.
    unfold below in Hm. destruct n as [| |entries]; try discriminate.
    destruct (entries !! x) as [child|]; [|discriminate].
    destruct (os_mkdir child (y :: p)) as [e|child'] eqn:E; [discriminate|].
    injection Hm as <-. cbn [lstat]. rewrite lookup_insert_eq. now apply (IH child).
Qed.

Lemma os_mkdir_present (p : path) :
  forall n m, lstat n p = Some m -> os_mkdir n p = inl EEXIST.
Proof.
  induction p as [|x p IH]; intros n m Hl; [reflexivity|].
  cbn [lstat] in Hl. destruct n as [| |entries]; try discriminate.
  destruct (entries !! x) as [child|] eqn:Ex; [|discriminate].
  destruct p as [|y p].
  - simpl. now rewrite Ex.
  - change (os_mkdir (Dir entries) (x :: y :: p))
      with (below (Dir entries) x ENOENT (fun child => os_mkdir child (y :: p))).
    unfold below. now rewrite Ex, (IH child m Hl).
Qed.

Lemma os_mkdir_links (p : path) :
  forall n n', os_mkdir n p = inr n' -> same_links n n'.
Proof.
  induction p as [|x p IH]; intros n n' Hm; [discriminate|].
  destruct p as [|y p].
  - simpl in Hm. destruct n as [| |entries]; try discriminate.
    destruct (entries !! x) eqn:Ex; [discriminate|]. injection Hm as <-.
    intros [|z q] t; cbn [lstat]; [split; discriminate|].
    destruct (decide (x = z)) as [<-|Hne].
    + rewrite lookup_insert_eq, Ex. destruct q; simpl; split; discriminate.
    + now rewrite lookup_insert_ne.
  - change (os_mkdir n (x :: y :: p))
      with (below n x ENOENT (fun child => os_mkdir child (y :: p))) in Hm.
    unfold below in Hm. destruct n as [| |entries]; try discriminate.
    destruct (entries !! x) as [child|] eqn:Ex; [|discriminate].
    destruct (os_mkdir child (y :: p)) as [e|child'] eqn:E; [discriminate|].
    injection Hm as <-.
    intros [|z q] t; cbn [lstat]; [split; discriminate|].
    destruct (decide (x = z)) as [<-|Hne].
    + rewrite lookup_insert_eq, Ex. now apply (IH child).
    + now rewrite lookup_insert_ne.
Qed.

Lemma mkdir_from_last_eq (d : nat) (n : node) (rp : list string) :
  mkdir_from_last d n rp =
    match os_mkdir n (rev rp) with
    | inr n' => inr n'
    | inl ENOENT =>
        match rp with
        | [] => inl (os_error ENOENT (rev rp))
        | _ :: rparent =>
            match mkdir_from_last d n rparent with
            | inl e => inl e
            | inr n1 =>
                match os_mkdir n1 (rev rp) with
                | inr n2 => inr n2
                | inl ENOENT => inl (os_error ENOENT (rev rp))
                | inl e => if is_dir d n1 (rev rp) then inr n1 else inl (os_error e (rev rp))
                end
            end
        end
    | inl e => if is_dir d n (rev rp) then inr n else inl (os_error e (rev rp))
    end.
Proof. destruct rp; reflexivity. Qed.

Lemma mkdir_from_last_links (d : nat) (rp : list string) :
  forall n n', mkdir_from_last d n rp = inr n' -> same_links n n'.
Proof.
  induction rp as [|x rp IH]; intros n n' Hm; rewrite mkdir_from_last_eq in Hm.
  - destruct (os_mkdir n (rev [])) as [e|n1] eqn:E1.
    + destruct e; try discriminate;
        destruct (is_dir d n (rev [])); try discriminate;
        injection Hm as <-; apply same_links_refl.
    + injection Hm as <-. now apply (os_mkdir_links (rev [])).
  - destruct (os_mkdir n (rev (x :: rp))) as [e|n1] eqn:E1.
    + destruct e;
        try (destruct (is_dir d n (rev (x :: rp))); try discriminate;
             injection Hm as <-; apply same_links_refl).
      destruct (mkdir_from_last d n rp) as [e|n1] eqn:E2; [discriminate|].
      apply (same_links_trans n n1 n'); [now apply IH|].
      destruct (os_mkdir n1 (rev (x :: rp))) as [e|n2] eqn:E3.
      * destruct e; try discriminate;
          destruct (is_dir d n1 (rev (x :: rp))); try discriminate;
          injection Hm as <-; apply same_links_refl.
      * injection Hm as <-. now apply (os_mkdir_links (rev (x :: rp))).
    + injection Hm as <-. now apply (os_mkdir_links (rev (x :: rp))).
Qed.

Lemma mkdir_from_last_error (d : nat) (rp : list string) :
  forall n e, mkdir_from_last d n rp = inl e -> is_Exception e = true.
Proof.
  induction rp as [|x rp IH]; intros n e Hm; rewrite mkdir_from_last_eq in Hm.
  - destruct (os_mkdir n (rev [])) as [e1|n1]; [|discriminate].
    destruct e1; try (destruct (is_dir d n (rev []))); try discriminate;
      now injection Hm as <-.
  - destruct (os_mkdir n (rev (x :: rp))) as [e1|n1]; [|discriminate].
    destruct e1;
      try (destruct (is_dir d n (rev (x :: rp))); [discriminate | now injection Hm as <-]).
    destruct (mkdir_from_last d n rp) as [e2|n1] eqn:E2.
    + injection Hm as <-. now apply (IH n).
    + destruct (os_mkdir n1 (rev (x :: rp))) as [e3|n2]; [|discriminate].
      destruct e3; try (destruct (is_dir d n1 (rev (x :: rp)))); try discriminate;
        now injection Hm as <-.
Qed.

Lemma is_dir_canonical (d : nat) (n : node) (p : path) (entries : gmap string node) :
  canonical p -> lstat n p = Some (Dir entries) -> is_dir d n p = true.
Proof.
  intros Hc Hl. unfold is_dir, stat.
  rewrite (realpath_canonical_dir _ n (Dir entries)) by (try assumption; discriminate).
  now rewrite Hl.
Qed.

(** A directory just made by [os.mkdir] is there for a second
    [Path.mkdir]. *)
Lemma mkdir_made (d : nat) (n n' : node) (rp : list string) :
  canonical (rev rp) -> os_mkdir n (rev rp) = inr n' ->
  mkdir_from_last d n' rp = inr n' /\ is_dir d n' (rev rp) = true.
Proof.
  intros Hc Hm. pose proof (os_mkdir_lstat _ _ _ Hm) as Hl.
  assert (Hd : is_dir d n' (rev rp) = true) by now apply (is_dir_canonical d n' _ ∅).
  split; [|exact Hd].
  now rewrite mkdir_from_last_eq, (os_mkdir_present _ _ _ Hl), Hd.
Qed.

Lemma mkdir_kept (d : nat) (n : node) (rp : list string) (e : errno) :
  e <> ENOENT -> os_mkdir n (rev rp) = inl e -> is_dir d n (rev rp) = true ->
  mkdir_from_last d n rp = inr n.
Proof. intros He E Hd. rewrite mkdir_from_last_eq, E, Hd. now destruct e. Qed.

(** [Path.mkdir(parents=True, exist_ok=True)] that has succeeded succeeds
    again and changes nothing. *)
Lemma mkdir_again (d : nat) (n n' : node) (rp : list string) :
  canonical (rev rp) -> mkdir_from_last d n rp = inr n' ->
  mkdir_from_last d n' rp = inr n' /\ is_dir d n' (rev rp) = true.
Proof.
  intros Hc Hm. rewrite mkdir_from_last_eq in Hm.
  destruct (os_mkdir n (rev rp)) as [e|n1] eqn:E1.
  - destruct e; cbv iota in Hm;
      try (destruct (is_dir d n (rev rp)) eqn:Hd; cbv iota in Hm; [|discriminate Hm];
           injection Hm as <-;
           split; [|exact Hd];
           (eapply mkdir_kept; [|exact E1|exact Hd]); discriminate).
    destruct rp as [|x rp]; [discriminate|].
    destruct (mkdir_from_last d n rp) as [e2|n1]; [discriminate|].
    destruct (os_mkdir n1 (rev (x :: rp))) as [e3|n2] eqn:E3.
    + destruct e3; cbv iota in Hm; try discriminate.
      all: destruct (is_dir d n1 (rev (x :: rp))) eqn:Hd; cbv iota in Hm; [|discriminate Hm].
      all: injection Hm as <-; (split; [|exact Hd]).
      all: (eapply mkdir_kept; [|exact E3|exact Hd]); discriminate.
    + injection Hm as <-. now apply (mkdir_made d n1).
  - injection Hm as <-. now apply (mkdir_made d n).
Qed.

Section Mkdir.
Context `{Host}.

Lemma resolve_path_same_links (s : state) (n' : node) (o : option string) :
  same_links (fs s) n' -> _resolve_path (set_fs n' s) o = _resolve_path s o.
Proof.
  intros Hl. destruct o as [input|]; [|reflexivity].
  destruct input as [|c input]; [reflexivity|].
  unfold _resolve_path, resolve, realpath. simpl fs. simpl cwd. simpl root.
  now rewrite !(joinrealpath_same_links (fs s) n' symlink_depth Hl).
Qed.

(** [mkdir x] with one argument: the result of [Path.mkdir] on the
    resolved path. *)
Lemma cmd_mkdir_one (x : string) (s : state) :
  cmd_mkdir [x] s =
    match mkdir symlink_depth (fs s) (_resolve_path s (Some x)) with
    | inr n' => (Return tt, set_fs n' s)
    | inl e => (Raise e, s)
    end.
Proof.
  unfold cmd_mkdir, for_each, path_mkdir, syscall. run_reads.
  now destruct (mkdir _ _ _).
Qed.

Lemma execute_mkdir_one (line x : string) (s : state) :
  Shlex.split line = inr ["mkdir"; x] ->
  execute line s =
    match mkdir symlink_depth (fs s) (_resolve_path s (Some x)) with
    | inr n' => (Return tt, set_fs n' s)
    | inl e => (Return tt, reported (exn_str e) s)
    end.
Proof.
  intros E. rewrite (execute_tokens line "mkdir" [x] s E).
  change (commands !! "mkdir") with (Some cmd_mkdir).
  unfold try_except. rewrite cmd_mkdir_one.
  destruct (mkdir _ _ _) as [e|n'] eqn:Hm; [|reflexivity].
  unfold mkdir in Hm. now rewrite (mkdir_from_last_error _ _ _ _ Hm).
Qed.

(** C8, as amended.  When a first [mkdir x] reports no error, a second
    [mkdir x] reports none either and changes nothing: the path that [x]
    resolves to is a directory after the first call and the session after
    the second call is the session after the first.  That directory is
    [root] or below it when [cwd] is, [root] is a directory and no entry
    directly below [root] is a symbolic link. *)
Theorem mkdir_twice (line x : string) (s : state) :
  Shlex.split line = inr ["mkdir"; x] -> well_formed s ->
  stdout (snd (execute line s)) = stdout s ->
  execute line (snd (execute line s)) = (Return tt, snd (execute line s))
  /\ is_dir symlink_depth (fs (snd (execute line s)))
       (_resolve_path (snd (execute line s)) (Some x)) = true
  /\ (forall entries,
        within (root s) (cwd s) ->
        lstat (fs s) (root s) = Some (Dir entries) ->
        (forall y, not_link (fs s) (root s ++ [y])) ->
        within (root (snd (execute line s)))
          (_resolve_path (snd (execute line s)) (Some x))).
Proof.
  intros E Hwf Hquiet.
  rewrite (execute_mkdir_one line x s E) in *.
  destruct (mkdir symlink_depth (fs s) (_resolve_path s (Some x))) as [e|n'] eqn:Hm.
  - exfalso. cbn [snd reported set_stdout stdout] in Hquiet.
    apply append_same_l in Hquiet.
    destruct ("error: " +:+ exn_str e); discriminate.
  - cbn [snd]. unfold mkdir in Hm.
    pose proof (mkdir_from_last_links _ _ _ _ Hm) as Hl.
    assert (Hc : canonical (rev (rev (_resolve_path s (Some x))))).
    { rewrite rev_involutive. now apply resolve_path_canonical. }
    destruct (mkdir_again _ _ _ _ Hc Hm) as [Hagain Hdir].
    rewrite rev_involutive in Hdir.
    rewrite (execute_mkdir_one line x _ E).
    rewrite (resolve_path_same_links s n' (Some x) Hl). cbn [fs set_fs root].
    unfold mkdir. rewrite Hagain. split; [reflexivity|]. split; [exact Hdir|].
    intros entries Hin Hroot Hnolink.
    now apply (resolve_path_confined s (Some x) entries).
Qed.

End Mkdir.

(** C8, the claim as stated fails.  Where [notes] is a regular file, the
    first [mkdir notes] reports that the file exists, and so does the
    second; there is no directory [notes] afterwards. *)
Lemma mkdir_over_a_file_fails_twice :
  execute (H := bare_host) "mkdir notes" plain
  = (Return tt, reported "[Errno 17] File exists: '/srv/box/notes'" plain)
  /\ execute (H := bare_host) "mkdir notes"
       (snd (execute (H := bare_host) "mkdir notes" plain))
     = (Return tt,
        reported "[Errno 17] File exists: '/srv/box/notes'"
          (reported "[Errno 17] File exists: '/srv/box/notes'" plain))
  /\ is_dir 8 plain_disk ["srv"; "box"; "notes"] = false.
Proof. repeat split; vm_compute; reflexivity. Qed.

Lemma plain_box :
  lstat (fs plain) ["srv"; "box"]
  = Some (mkdir_entries
            [ ("docs", mkdir_entries [("a.txt", File "alpha")]); ("notes", File "todo") ]).
Proof. vm_compute. reflexivity. Qed.

Lemma plain_root_without_links (y : string) : not_link (fs plain) (root plain ++ [y]).
Proof.
  intros t. change (root plain ++ [y]) with (["srv"; "box"] ++ [y]).
  rewrite lstat_app, plain_box. unfold mkdir_entries. cbn [lstat].
  destruct (_ !! y) as [child|] eqn:Ey; [|discriminate].
  apply elem_of_list_to_map_2 in Ey.
  repeat (apply elem_of_cons in Ey as [[= -> ->] | Ey]; [discriminate|]).
  now apply elem_of_nil in Ey.
Qed.

Lemma mkdir_twice_witness :
  execute (H := bare_host) "mkdir docs/new"
    (snd (execute (H := bare_host) "mkdir docs/new" plain))
  = (Return tt, snd (execute (H := bare_host) "mkdir docs/new" plain))
  /\ within (root plain)
       (_resolve_path (H := bare_host)
          (snd (execute (H := bare_host) "mkdir docs/new" plain)) (Some "docs/new")).
Proof.
  assert (Hquiet : stdout (snd (execute (H := bare_host) "mkdir docs/new" plain))
                   = stdout plain) by (vm_compute; reflexivity).
  destruct (mkdir_twice (H := bare_host) "mkdir docs/new" "docs/new" plain
              eq_refl (proj2 demo_well_formed) Hquiet) as (Hsame & _ & Hin).
  split; [exact Hsame|].
  apply (Hin (list_to_map
                [ ("docs", mkdir_entries [("a.txt", File "alpha")]);
                  ("notes", File "todo") ])).
  - exists []. reflexivity.
  - exact plain_box.
  - exact plain_root_without_links.
Defined.

(** * Further properties of the session and of the handlers *)

(** ** Computations that respect a relation on states *)

Section Respects.
Context (R : state -> state -> Prop) `{!PreOrder R}.

Lemma respects_ret {A : Type} (a : A) : respects R (mret a : M A).
Proof. intros s. reflexivity. Qed.

Lemma respects_raise {A : Type} (e : exn) : respects R (raise e : M A).
Proof. intros s. reflexivity. Qed.

Lemma respects_gets {A : Type} (f : state -> A) : respects R (gets f).
Proof. intros s. reflexivity. Qed.

Lemma respects_host_call (f : state -> exn + string) : respects R (host_call f).
Proof. intros s. unfold host_call. destruct (f s); reflexivity. Qed.

Lemma respects_modify (f : state -> state) :
  (forall s, R s (f s)) -> respects R (modify f).
Proof. intros Hf s. apply Hf. Qed.

Lemma respects_bind {A B : Type} (m : M A) (f : A -> M B) :
  respects R m -> (forall a, respects R (f a)) -> respects R (m ≫= f).
Proof.
  intros Hm Hf s. unfold mbind, M_bind. specialize (Hm s).
  destruct (m s) as [[a|e] s']; simpl in *; [|exact Hm].
  transitivity s'; [exact Hm | apply Hf].
Qed.

Lemma respects_try {A : Type} (m : M A) (caught : exn -> bool) (h : exn -> M A) :
  respects R m -> (forall e, respects R (h e)) -> respects R (try_except m caught h).
Proof.
  intros Hm Hh s. unfold try_except. specialize (Hm s).
  destruct (m s) as [[a|e] s']; simpl in *; [exact Hm|].
  destruct (caught e); [|exact Hm].
  transitivity s'; [exact Hm | apply Hh].
Qed.

Lemma respects_for_each {A : Type} (body : A -> M unit) (l : list A) :
  (forall x, respects R (body x)) -> respects R (for_each body l).
Proof.
  intros Hb. induction l as [|x l IH]; simpl.
  - apply respects_ret.
  - apply respects_bind; [apply Hb | intros _; exact IH].
Qed.

End Respects.

(** One step through a handler's body; [tac] settles the writes. *)
Ltac respects_step tac :=
  first
    [ apply respects_ret; solve [typeclasses eauto]
    | apply respects_raise; solve [typeclasses eauto]
    | apply respects_gets; solve [typeclasses eauto]
    | apply respects_host_call; solve [typeclasses eauto]
    | apply respects_bind; [typeclasses eauto | | intros ?]
    | apply respects_try; [typeclasses eauto | | intros ?]
    | apply respects_for_each; [typeclasses eauto | intros ?]
    | apply respects_modify; intros ?; solve [tac]
    | match goal with
      | |- respects _ (match ?x with _ => _ end) => destruct x
      end ].

Ltac respects_with tac := repeat respects_step tac.

#[export] Instance io_forward_preorder : PreOrder io_forward.
Proof.
  split.
  - intros s. split; [reflexivity|]. exists "". now rewrite append_nil_r.
  - intros a b c (Hi & t & Ho) (Hi' & t' & Ho').
    split; [now transitivity (stdin b)|].
    exists (t +:+ t'). now rewrite Ho', Ho, append_assoc.
Qed.


(** ** Input is consumed and output is appended *)

Section Forward.
Context `{Host}.

Lemma forward_write (text : string) : respects io_forward (write text).
Proof. intros s. split; [reflexivity | now exists text]. Qed.

Lemma forward_print (text : string) : respects io_forward (print text).
Proof. apply forward_write. Qed.

Lemma forward_print_err (msg : string) : respects io_forward (_print_err msg).
Proof. apply forward_write. Qed.

Lemma forward_set_fs (n : node) (s : state) : io_forward s (set_fs n s).
Proof. split; [reflexivity|]. exists "". simpl. now rewrite append_nil_r. Qed.

Lemma forward_set_cwd (p : path) (s : state) : io_forward s (set_cwd p s).
Proof. split; [reflexivity|]. exists "". simpl. now rewrite append_nil_r. Qed.

Lemma forward_syscall (f : node -> exn + node) : respects io_forward (syscall f).
Proof.
  intros s. unfold syscall. run_reads. destruct (f (fs s)); simpl.
  - reflexivity.
  - apply forward_set_fs.
Qed.

Lemma forward_input (prompt : string) : respects io_forward (input prompt).
Proof.
  intros s. unfold input, write, modify. run_reads. simpl.
  destruct (stdin s) as [|line l] eqn:E; simpl.
  - split; [reflexivity | now exists prompt].
  - split; [now exists [line] | now exists prompt].
Qed.

Lemma forward_confirm (prompt : string) : respects io_forward (_confirm prompt).
Proof.
  apply respects_try; [typeclasses eauto | | intros _; apply respects_ret; typeclasses eauto].
  apply respects_bind; [typeclasses eauto | apply forward_input |].
  intros ?. apply respects_ret. typeclasses eauto.
Qed.

End Forward.

Create HintDb forward.
#[local] Hint Resolve forward_write forward_print forward_print_err forward_syscall
  forward_input forward_confirm : forward.

Ltac forward :=
  repeat first
    [ solve [auto with forward]
    | respects_step ltac:(first [apply forward_set_fs | apply forward_set_cwd]) ].

Section ForwardHandlers.
Context `{Host}.

Lemma forward_registry (cmd : string) (handler : list string -> M unit) (args : list string) :
  commands !! cmd = Some handler -> respects io_forward (handler args).
Proof.
  intros Hlook. unfold commands in Hlook.
  apply elem_of_list_to_map_2 in Hlook.
  repeat (apply elem_of_cons in Hlook as [[= -> ->] | Hlook];
          [unfold cmd_help, cmd_pwd, cmd_ls, ls_entry, cmd_cd, cmd_mkdir, cmd_rm, rm_item,
             cmd_touch, touch_item, cmd_cat, cat_item, cmd_echo, cmd_cp, cmd_mv,
             cmd_head, cmd_tail, head_item, _read_n_lines, cmd_ps, cmd_sysmon, cmd_df,
             cmd_history, cmd_exit, path_exists, path_is_dir, path_is_file, path_mkdir,
             read_text;
           forward|]).
  now apply elem_of_nil in Hlook.
Qed.

(** However a line is dispatched, [execute] reads standard input only
    from the front and only adds to standard output. *)
Lemma execute_forward (line : string) : respects io_forward (execute line).
Proof.
  unfold execute. destruct (Shlex.split line) as [e | [|cmd args]].
  - apply forward_print_err.
  - apply respects_raise. typeclasses eauto.
  - destruct (commands !! cmd) as [handler|] eqn:Hlook; [|apply forward_print_err].
    apply respects_try; [typeclasses eauto | | intros e; apply forward_print_err].
    now apply (forward_registry cmd).
Qed.

End ForwardHandlers.

(** ** What a handler can raise *)

Section Raises.
Context `{Host}.

Lemma raises_ret {A : Type} (a : A) : raises_exceptions (mret a : M A).
Proof. intros s e. discriminate. Qed.

Lemma raises_raise {A : Type} (e : exn) :
  is_Exception e = true -> raises_exceptions (raise e : M A).
Proof. intros He s e' [= <-]. exact He. Qed.

Lemma raises_gets {A : Type} (f : state -> A) : raises_exceptions (gets f).
Proof. intros s e. discriminate. Qed.

Lemma raises_modify (f : state -> state) : raises_exceptions (modify f).
Proof. intros s e. discriminate. Qed.

Lemma raises_bind {A B : Type} (m : M A) (f : A -> M B) :
  raises_exceptions m -> (forall a, raises_exceptions (f a)) ->
  raises_exceptions (m ≫= f).
Proof.
  intros Hm Hf s e. unfold mbind, M_bind. specialize (Hm s).
  destruct (m s) as [[a|e'] s']; simpl in *.
  - apply Hf.
  - intros [= <-]. now apply Hm.
Qed.

Lemma raises_try {A : Type} (m : M A) (caught : exn -> bool) (h : exn -> M A) :
  raises_exceptions m -> (forall e, raises_exceptions (h e)) ->
  raises_exceptions (try_except m caught h).
Proof.
  intros Hm Hh s e. unfold try_except. specialize (Hm s).
  destruct (m s) as [[a|e'] s']; simpl in *; [discriminate|].
  destruct (caught e'); [apply Hh|].
  simpl. intros [= <-]. now apply Hm.
Qed.

Lemma raises_for_each {A : Type} (body : A -> M unit) (l : list A) :
  (forall x, raises_exceptions (body x)) -> raises_exceptions (for_each body l).
Proof.
  intros Hb. induction l as [|x l IH]; simpl.
  - apply raises_ret.
  - apply raises_bind; [apply Hb | intros _; exact IH].
Qed.

Lemma raises_write (text : string) : raises_exceptions (write text).
Proof. apply raises_modify. Qed.

Lemma raises_print (text : string) : raises_exceptions (print text).
Proof. apply raises_modify. Qed.

Lemma raises_print_err (msg : string) : raises_exceptions (_print_err msg).
Proof. apply raises_modify. Qed.

Lemma raises_syscall (f : node -> exn + node) :
  (forall n e, f n = inl e -> is_Exception e = true) -> raises_exceptions (syscall f).
Proof.
  intros Hf s e. unfold syscall. run_reads. destruct (f (fs s)) as [e'|n'] eqn:E; simpl.
  - intros [= <-]. now apply (Hf (fs s)).
  - discriminate.
Qed.

Lemma raises_path_mkdir (p : path) : raises_exceptions (path_mkdir p).
Proof.
  apply raises_syscall. intros n e. unfold mkdir. apply mkdir_from_last_error.
Qed.

Lemma raises_input (prompt : string) : raises_exceptions (input prompt).
Proof.
  intros s e. unfold input, write, modify. run_reads. simpl.
  destruct (stdin s); simpl; [now intros [= <-] | discriminate].
Qed.

(** [_confirm] never raises. *)
Lemma confirm_returns (prompt : string) (s : state) :
  exists yes, fst (_confirm prompt s) = Return yes.
Proof.
  unfold _confirm, try_except, input, write, modify. run_reads. simpl.
  destruct (stdin s); simpl; eauto.
Qed.

Lemma raises_confirm (prompt : string) : raises_exceptions (_confirm prompt).
Proof. intros s e He. destruct (confirm_returns prompt s) as [yes Hy]. congruence. Qed.

End Raises.

Create HintDb raises.
#[local] Hint Resolve raises_ret raises_gets raises_modify raises_write raises_print
  raises_print_err raises_path_mkdir raises_input raises_confirm : raises.

Ltac raises :=
  repeat first
    [ solve [auto with raises]
    | match goal with
      | |- raises_exceptions (syscall _) =>
          apply raises_syscall; intros ? ?;
          match goal with
          | |- context [match ?x with _ => _ end] =>
              destruct x; [now intros [= <-] | discriminate]
          end
      end
    | apply raises_bind; [|intros ?]
    | apply raises_try; [|intros ?]
    | apply raises_for_each; intros ?
    | apply raises_raise; reflexivity
    | match goal with
      | |- raises_exceptions (match ?x with _ => _ end) => destruct x
      end ].

Section RaisesRm.
Context `{Host}.

Lemma rmtree_error (n n' : node) (p : path) (e : exn) :
  rmtree n p = (n', Some e) -> is_Exception e = true.
Proof.
  unfold rmtree. destruct p as [|x p].
  - now intros [= _ <-].
  - destruct (remove n (x :: p)); [now intros [= _ <-] | discriminate].
Qed.

Lemma raises_rm_item (recursive : bool) (f : string) :
  raises_exceptions (rm_item recursive f).
Proof.
  unfold rm_item, path_exists, path_is_dir.
  apply raises_bind; [auto with raises | intros p].
  apply raises_bind; [auto with raises | intros e].
  destruct (negb e); [auto with raises|].
  apply raises_bind; [auto with raises | intros d].
  destruct d.
  - destruct (negb recursive); [auto with raises|].
    apply raises_bind; [auto with raises | intros yes].
    destruct (negb yes); [auto with raises|].
    apply raises_bind; [auto with raises | intros n].
    destruct (rmtree n p) as [n' [err|]] eqn:E.
    + apply raises_bind; [auto with raises | intros _].
      apply raises_raise. now apply (rmtree_error n n' p).
    + apply raises_bind; auto with raises.
  - apply raises_syscall. intros n err.
    destruct (remove n p); [now intros [= <-] | discriminate].
Qed.

End RaisesRm.

#[local] Hint Resolve raises_rm_item : raises.

Section RaisesHandlers.
Context `{Host}.


End RaisesHandlers.

(** ** The dispatcher as a boundary *)

Section Boundary.
Context `{Host}.

(** What leaves [execute] as an exception is the unpacking error of a
    line without tokens, or something that is not an [Exception]. *)
Lemma execute_raises (line : string) (s : state) (e : exn) :
  fst (execute line s) = Raise e ->
  (Shlex.split line = inr [] /\ e = unpack_error) \/ is_Exception e = false.
Proof.
  unfold execute. destruct (Shlex.split line) as [err | [|cmd args]].
  - discriminate.
  - intros [= <-]. now left.
  - destruct (commands !! cmd) as [handler|]; [|discriminate].
    unfold try_except. destruct (handler args s) as [[[]|e'] s']; [discriminate|].
    destruct (is_Exception e') eqn:E; [discriminate|].
    simpl. intros [= <-]. now right.
Qed.

(** X1.  Whatever the line, [execute] takes its input from the front of
    standard input, only adds to standard output and leaves [root]
    alone. *)
Theorem execute_appends_and_consumes (line : string) (s : state) :
  stdin (snd (execute line s)) `suffix_of` stdin s
  /\ (exists text, stdout (snd (execute line s)) = stdout s +:+ text)
  /\ root (snd (execute line s)) = root s.
Proof.
  destruct (execute_forward line s) as [Hin Hout].
  split; [exact Hin|]. split; [exact Hout | apply execute_root].
Qed.


(** X3.  [exit] and [quit], with any arguments, leave [execute] with
    [SystemExit(0)]; nothing is written and the session is as before. *)
Theorem exit_leaves_execute (line cmd : string) (args : list string) (s : state) :
  Shlex.split line = inr (cmd :: args) -> cmd = "exit" \/ cmd = "quit" ->
  execute line s = (Raise (SystemExit 0), s).
Proof.
  intros E Hcmd. rewrite (execute_tokens line cmd args s E).
  destruct Hcmd as [-> | ->]; reflexivity.
Qed.

End Boundary.


Lemma exit_leaves_execute_witness :
  execute (H := bare_host) "quit now" plain = (Raise (SystemExit 0), plain).
Proof.
  apply (exit_leaves_execute (H := bare_host) "quit now" "quit" ["now"] plain).
  - reflexivity.
  - now right.
Defined.
